(** * The Salesforce object export script, [export.py]

    The script loops over a fixed list of object types.  For each one it
    asks the Salesforce CLI to describe the object, parses the JSON it gets
    back, keeps the lookup fields that reference [Account], builds a SOQL
    query from them and runs a bulk export, which it then checks.

    The development follows the script from top to bottom:
    - [Py]: the Python values the script handles (what [json.loads]
      returns) and the built-in operations it applies to them, [print]
      among them, with the exceptions they raise;
    - [JsonDecoder]: [json.loads], with the grammar it accepts and the two
      limits of the interpreter it can run into;
    - the script itself: field scan, query construction, export and the
      main loop, over an explicit model of the operating system;
    - [Scripted]: a small environment to run the script in;
    - the words of the specification, and the properties of the script
      stated in them. *)

From Stdlib Require Import String Ascii List ZArith Bool Arith Lia.
Import ListNotations.

Set Warnings "-register-all".

Local Open Scope list_scope.
Local Open Scope string_scope.

(* ====================================================================== *)
(** ** Python values and built-ins *)
(* ====================================================================== *)

Module Py.

(** A Python [str] is kept as the bytes of its UTF-8 encoding; a lone
    surrogate, which UTF-8 proper leaves out, takes the three bytes that
    the same scheme gives its code point. *)

(** Numbers as [json.loads] produces them: an [int], or a [float] read
    from the literal [m * 10^e], or one of the three constants the decoder
    accepts beyond the JSON standard. *)
Inductive number : Type :=
| NInt (z : Z)
| NDec (m e : Z)
| NNaN
| NInf (negative : bool).

(** What [json.loads] returns.  A [dict] keeps its members in insertion
    order, as Python's does; its keys are always strings here. *)
Inductive json : Type :=
| JNull
| JBool (b : bool)
| JNum (n : number)
| JStr (s : string)
| JList (items : list json)
| JDict (members : list (string * json)).

(** The exceptions that the script's expressions and the calls it makes can
    raise: the first three by the operations on parsed values,
    [UnicodeEncodeError] by [print], the last three by [json.loads].  In
    Python [JSONDecodeError] is a subclass of [ValueError]; the one handler
    that names it (line 101) catches it and not a plain [ValueError]. *)
Inductive exn : Type :=
| TypeError
| AttributeError
| KeyError
| UnicodeEncodeError
| ValueError
| RecursionError
| JSONDecodeError.

Inductive result (A : Type) : Type :=
| Ok (a : A)
| Raise (e : exn).
Arguments Ok {A} a.
Arguments Raise {A} e.

Definition bind {A B : Type} (c : result A) (k : A -> result B) : result B :=
  match c with
  | Ok a => k a
  | Raise e => Raise e
  end.

Notation "x <- c1 ;; c2" := (bind c1 (fun x => c2))
  (at level 61, c1 at next level, right associativity).

(** *** Dictionaries *)

Fixpoint dict_lookup (k : string) (d : list (string * json)) : option json :=
  match d with
  | [] => None
  | (k', v) :: d' => if String.eqb k' k then Some v else dict_lookup k d'
  end.

(** [d[k] = v]: an existing key keeps its place and takes the new value, a
    new key goes to the end. *)
Fixpoint dict_set (k : string) (v : json) (d : list (string * json))
  : list (string * json) :=
  match d with
  | [] => [(k, v)]
  | (k', v') :: d' =>
      if String.eqb k' k then (k', v) :: d' else (k', v') :: dict_set k v d'
  end.

Definition dict_has (k : string) (d : list (string * json)) : bool :=
  existsb (fun kv => String.eqb (fst kv) k) d.

(** *** Strings *)

(** [needle in hay] for two strings: a substring test. *)
Fixpoint str_contains (needle hay : string) : bool :=
  String.prefix needle hay ||
  match hay with
  | EmptyString => false
  | String _ hay' => str_contains needle hay'
  end.

(** [sep.join(items)] for a list of strings: the first item, then each
    further item behind a separator. *)
Definition join_strs (sep : string) (items : list string) : string :=
  match items with
  | [] => ""
  | x :: rest => fold_left (fun acc y => acc ++ sep ++ y) rest x
  end.

(** *** Built-ins on parsed values *)

(** A float literal [m * 10^e] is read as [0.0] when it is zero or lies at
    or below half the smallest subnormal double, [2^-1075]. *)
Definition rounds_to_zero (m e : Z) : bool :=
  (m =? 0)%Z || ((e <? 0)%Z && (Z.abs m * 2 ^ 1075 <=? 10 ^ (- e))%Z).

(** Truth value of an object, as [if x:] tests it. *)
Definition truthy (v : json) : bool :=
  match v with
  | JNull => false
  | JBool b => b
  | JNum (NInt z) => negb (z =? 0)%Z
  | JNum (NDec m e) => negb (rounds_to_zero m e)
  | JNum NNaN => true
  | JNum (NInf _) => true
  | JStr s => negb (String.eqb s "")
  | JList items => match items with [] => false | _ => true end
  | JDict members => match members with [] => false | _ => true end
  end.

(** [v == needle] for a string [needle]: only an equal string is equal. *)
Definition eq_str (needle : string) (v : json) : bool :=
  match v with
  | JStr s => String.eqb s needle
  | _ => false
  end.

(** [needle in c] for a string [needle]: key membership on a dict,
    element membership on a list, substring test on a string; any other
    operand is not iterable. *)
Definition contains (needle : string) (c : json) : result bool :=
  match c with
  | JDict members => Ok (dict_has needle members)
  | JList items => Ok (existsb (eq_str needle) items)
  | JStr s => Ok (str_contains needle s)
  | _ => Raise TypeError
  end.

(** [c[key]] for a string [key]: only a dict can be indexed by a string. *)
Definition getitem (c : json) (key : string) : result json :=
  match c with
  | JDict members =>
      match dict_lookup key members with
      | Some v => Ok v
      | None => Raise KeyError
      end
  | _ => Raise TypeError
  end.

(** [c.get(key, default)]: only a dict has the method. *)
Definition get (c : json) (key : string) (default : json) : result json :=
  match c with
  | JDict members =>
      match dict_lookup key members with
      | Some v => Ok v
      | None => Ok default
      end
  | _ => Raise AttributeError
  end.

(** [c.keys()]: only a dict has the method. *)
Definition keys (c : json) : result (list string) :=
  match c with
  | JDict members => Ok (map fst members)
  | _ => Raise AttributeError
  end.

Definition isinstance_list (v : json) : bool :=
  match v with
  | JList _ => true
  | _ => false
  end.

(** The strings of a list of values, when every one is a string. *)
Fixpoint all_strs (items : list json) : option (list string) :=
  match items with
  | [] => Some []
  | JStr s :: rest =>
      match all_strs rest with
      | Some ss => Some (s :: ss)
      | None => None
      end
  | _ :: _ => None
  end.

(** The items of a value that passed [isinstance(_, list)]. *)
Definition list_items (v : json) : list json :=
  match v with
  | JList items => items
  | _ => []
  end.

(** [sep.join(items)] for a list of values: every item must be a string. *)
Definition join (sep : string) (items : list json) : result string :=
  match all_strs items with
  | Some ss => Ok (join_strs sep ss)
  | None => Raise TypeError
  end.

(** [list(dict.fromkeys(names))] for string keys: each key is inserted in
    turn, and inserting a key the dict already holds changes nothing. *)
Definition fromkeys_insert (d : list string) (k : string) : list string :=
  if existsb (String.eqb k) d then d else d ++ [k].

Definition fromkeys (names : list string) : list string :=
  fold_left fromkeys_insert names [].

(** *** Printing *)

(** [print] encodes its line for the standard output, taken to be UTF-8
    with the strict error handler (the check marks of lines 251 to 258 need
    UTF-8 as it is).  A code point from U+D800 to U+DFFF, a lone surrogate,
    cannot be encoded.  [json.loads] makes one from an escape such as
    [\ud800] that has no partner; in the bytes that stand for a [str] here
    it is the byte 237 followed by a byte from 160 on, which starts no
    other code point. *)
Fixpoint has_surrogate (s : string) : bool :=
  match s with
  | EmptyString => false
  | String c r =>
      ((N_of_ascii c =? 237)%N &&
       match r with
       | String d _ => (160 <=? N_of_ascii d)%N
       | EmptyString => false
       end)
      || has_surrogate r
  end.

(** Whether [f"{v}"] can be printed.  A [str] is shown as it is; every
    other value is shown through [repr], which escapes the surrogates of
    the strings inside it. *)
Definition printable (v : json) : bool :=
  match v with
  | JStr s => negb (has_surrogate s)
  | _ => true
  end.

(** [print(f"...{v1}...{vn}...")] for a line whose own text is ASCII. *)
Definition print (values : list json) : result unit :=
  if forallb printable values then Ok tt else Raise UnicodeEncodeError.

End Py.
Import Py.

(* ====================================================================== *)
(** ** The JSON decoder *)
(* ====================================================================== *)

(** [json.loads] as the standard library's decoder reads a document: the
    scanner [scan_once] with its helpers for strings, numbers, arrays and
    objects, and the driver that allows blanks around one value and nothing
    else.  A text outside the grammar raises [JSONDecodeError]; the helpers
    that only read characters say so with [None].  Two limits of the
    interpreter raise something else:
    - an integer literal of more than [max_str_digits] digits is not
      converted and raises [ValueError];
    - every array or object that is opened takes a level of the
      interpreter's call depth, and one too many raises [RecursionError].
      How many may be open at once depends on the interpreter, on its
      version and on the calls in progress (some 990 under the usual limit
      of 1000); the decoder takes that number as its [limit].
    Close to that bound CPython can also fail to build the report of a
    syntax error and raise [RecursionError] in its place; the decoder here
    draws the line at the nesting alone.  The properties below rest on the
    values the decoder returns and on the two errors of the driver (no
    value at all, text behind the value), which are raised outside any
    nesting. *)

Module JsonDecoder.

Local Open Scope char_scope.

Definition dquote : ascii := "034".
Definition backslash : ascii := "\".

(** The decoder's blanks: space, tab, line feed, carriage return. *)
Definition is_ws (c : ascii) : bool :=
  Ascii.eqb c " " || Ascii.eqb c "009" || Ascii.eqb c "010" || Ascii.eqb c "013".

Definition is_digit (c : ascii) : bool :=
  (48 <=? N_of_ascii c)%N && (N_of_ascii c <=? 57)%N.

Definition digit_value (c : ascii) : Z := Z.of_N (N_of_ascii c) - 48.

Local Open Scope string_scope.

Fixpoint skip_ws (s : string) : string :=
  match s with
  | String c r => if is_ws c then skip_ws r else s
  | EmptyString => EmptyString
  end.

(** [s] without the prefix [p], when it starts with it. *)
Fixpoint strip_prefix (p s : string) : option string :=
  match p with
  | EmptyString => Some s
  | String a p' =>
      match s with
      | String b s' => if Ascii.eqb a b then strip_prefix p' s' else None
      | EmptyString => None
      end
  end.

(** *** Strings *)

Definition hex_value (c : ascii) : option N :=
  let n := N_of_ascii c in
  if ((48 <=? n) && (n <=? 57))%N then Some (n - 48)%N
  else if ((97 <=? n) && (n <=? 102))%N then Some (n - 87)%N
  else if ((65 <=? n) && (n <=? 70))%N then Some (n - 55)%N
  else None.

(** The character a one-letter escape stands for. *)
Definition simple_escape (c : ascii) : option ascii :=
  if Ascii.eqb c dquote then Some dquote
  else if Ascii.eqb c backslash then Some backslash
  else if Ascii.eqb c "/"%char then Some "/"%char
  else if Ascii.eqb c "b"%char then Some "008"%char
  else if Ascii.eqb c "f"%char then Some "012"%char
  else if Ascii.eqb c "n"%char then Some "010"%char
  else if Ascii.eqb c "r"%char then Some "013"%char
  else if Ascii.eqb c "t"%char then Some "009"%char
  else None.

Definition byte (n : N) : string := String (ascii_of_N n) EmptyString.

(** UTF-8 bytes of a code point (a lone surrogate takes three bytes). *)
Definition utf8 (cp : N) : string :=
  if (cp <? 128)%N then byte cp
  else if (cp <? 2048)%N then
    byte (192 + cp / 64) ++ byte (128 + cp mod 64)
  else if (cp <? 65536)%N then
    byte (224 + cp / 4096) ++ byte (128 + (cp / 64) mod 64)
    ++ byte (128 + cp mod 64)
  else
    byte (240 + cp / 262144) ++ byte (128 + (cp / 4096) mod 64)
    ++ byte (128 + (cp / 64) mod 64) ++ byte (128 + cp mod 64).

Definition is_high_surrogate (cp : N) : bool :=
  (55296 <=? cp)%N && (cp <=? 56319)%N.
Definition is_low_surrogate (cp : N) : bool :=
  (56320 <=? cp)%N && (cp <=? 57343)%N.
Definition join_surrogates (hi lo : N) : N :=
  (65536 + (hi - 55296) * 1024 + (lo - 56320))%N.

(** Where the string scanner stands: in plain text, after a backslash, or
    inside a [\uXXXX] escape with [remaining] digits still to read. *)
Inductive str_mode : Type :=
| SPlain
| SEscape
| SHex (remaining : nat) (cp : N).

(** A high surrogate read from an escape waits in [pending] for a low one
    to pair with; anything else releases it as it is. *)
Definition flush (pending : option N) (acc : string) : string :=
  match pending with
  | Some hi => acc ++ utf8 hi
  | None => acc
  end.

Definition end_escape (pending : option N) (acc : string) (cp : N)
  : option N * string :=
  match pending with
  | Some hi =>
      if is_low_surrogate cp then (None, acc ++ utf8 (join_surrogates hi cp))
      else if is_high_surrogate cp then (Some cp, acc ++ utf8 hi)
      else (None, acc ++ utf8 hi ++ utf8 cp)
  | None =>
      if is_high_surrogate cp then (Some cp, acc) else (None, acc ++ utf8 cp)
  end.

(** The scanner for the inside of a string, in strict mode: the text after
    the opening quote gives the string's contents and what follows the
    closing quote. *)
Fixpoint scanstring_from (mode : str_mode) (pending : option N) (acc : string)
  (s : string) : option (string * string) :=
  match s with
  | EmptyString => None
  | String c r =>
      match mode with
      | SPlain =>
          if Ascii.eqb c dquote then Some (flush pending acc, r)
          else if Ascii.eqb c backslash then scanstring_from SEscape pending acc r
          else if (N_of_ascii c <? 32)%N then None
          else scanstring_from SPlain None (flush pending acc ++ String c EmptyString) r
      | SEscape =>
          if Ascii.eqb c "u"%char then scanstring_from (SHex 4 0) pending acc r
          else
            match simple_escape c with
            | Some ch =>
                scanstring_from SPlain None
                  (flush pending acc ++ String ch EmptyString) r
            | None => None
            end
      | SHex remaining cp =>
          match hex_value c with
          | None => None
          | Some d =>
              let cp' := (cp * 16 + d)%N in
              match remaining with
              | 1 =>
                  let (pending', acc') := end_escape pending acc cp' in
                  scanstring_from SPlain pending' acc' r
              | S remaining' => scanstring_from (SHex remaining' cp') pending acc r
              | O => None
              end
          end
      end
  end.

Definition scanstring (s : string) : option (string * string) :=
  scanstring_from SPlain None EmptyString s.

(** *** Numbers *)

Fixpoint span_digits (s : string) : string * string :=
  match s with
  | String c r =>
      if is_digit c then
        let (d, r') := span_digits r in (String c d, r')
      else (EmptyString, s)
  | EmptyString => (EmptyString, EmptyString)
  end.

Fixpoint digits_value (acc : Z) (d : string) : Z :=
  match d with
  | EmptyString => acc
  | String c r => digits_value (10 * acc + digit_value c) r
  end.

(** The digits of the integer part: a single zero, or a digit from 1 to 9
    with any digits after it. *)
Definition scan_int_digits (neg : bool) (s : string)
  : option (bool * string * string) :=
  match s with
  | String c r =>
      if Ascii.eqb c "0"%char then Some (neg, "0", r)
      else if is_digit c then
        let (d, r') := span_digits r in Some (neg, String c d, r')
      else None
  | EmptyString => None
  end.

(** Integer part: an optional minus sign, then the digits.  Gives sign,
    digits and rest. *)
Definition scan_int (s : string) : option (bool * string * string) :=
  match s with
  | String c r =>
      if Ascii.eqb c "-"%char then scan_int_digits true r
      else scan_int_digits false s
  | EmptyString => None
  end.

(** Optional fraction: a dot and at least one digit.  Gives its digits
    (none when it is absent) and the rest. *)
Definition scan_frac (s : string) : string * string :=
  match s with
  | String c r =>
      if Ascii.eqb c "."%char then
        match span_digits r with
        | (EmptyString, _) => (EmptyString, s)
        | (d, r') => (d, r')
        end
      else (EmptyString, s)
  | EmptyString => (EmptyString, s)
  end.

(** The digits of an exponent after its letter and sign; without a digit
    there is no exponent and the text [whole] is left as it stands. *)
Definition scan_exp_digits (neg : bool) (s whole : string) : option Z * string :=
  match span_digits s with
  | (EmptyString, _) => (None, whole)
  | (d, r) => (Some (if neg then - digits_value 0 d else digits_value 0 d)%Z, r)
  end.

Definition is_exp_letter (c : ascii) : bool :=
  Ascii.eqb c "e"%char || Ascii.eqb c "E"%char.

(** Optional exponent: [e] or [E], an optional sign, at least one digit. *)
Definition scan_exp (s : string) : option Z * string :=
  match s with
  | String c r =>
      if is_exp_letter c then
        match r with
        | String sg r' =>
            if Ascii.eqb sg "-"%char then scan_exp_digits true r' s
            else if Ascii.eqb sg "+"%char then scan_exp_digits false r' s
            else scan_exp_digits false r s
        | EmptyString => (None, s)
        end
      else (None, s)
  | EmptyString => (None, s)
  end.

(** The most digits [int] converts from a string
    ([sys.int_info.default_max_str_digits]); the sign does not count. *)
Definition max_str_digits : N := 4300.

(** A number: an [int] when it has neither fraction nor exponent, a
    [float] otherwise.  The literal is matched as a whole first; the
    conversion of an [int] with too many digits raises [ValueError], that
    of a [float] has no such limit. *)
Definition scan_number (s : string) : result (number * string) :=
  match scan_int s with
  | None => Raise JSONDecodeError
  | Some (neg, int, r) =>
      let (frac, r1) := scan_frac r in
      let (exp, r2) := scan_exp r1 in
      let sign (z : Z) := if neg then (- z)%Z else z in
      match frac, exp with
      | EmptyString, None =>
          if (max_str_digits <? N.of_nat (String.length int))%N
          then Raise ValueError
          else Ok (NInt (sign (digits_value 0 int)), r2)
      | _, _ =>
          let e := match exp with Some e => e | None => 0%Z end in
          Ok (NDec (sign (digits_value 0 (int ++ frac)))
                   (e - Z.of_nat (String.length frac)), r2)
      end
  end.

(** *** Values *)

(** The constants tried after a number failed to match. *)
Definition scan_constant (s : string) : option (json * string) :=
  match strip_prefix "NaN" s with
  | Some r => Some (JNum NNaN, r)
  | None =>
      match strip_prefix "Infinity" s with
      | Some r => Some (JNum (NInf false), r)
      | None =>
          match strip_prefix "-Infinity" s with
          | Some r => Some (JNum (NInf true), r)
          | None => None
          end
      end
  end.

Definition scan_literal (rest_of_word : string) (v : json) (r : string)
  : option (json * string) :=
  match strip_prefix rest_of_word r with
  | Some r' => Some (v, r')
  | None => None
  end.

(** What a helper that only reads characters found, as the scanner
    passes it on. *)
Definition found {A : Type} (o : option A) : result A :=
  match o with
  | Some a => Ok a
  | None => Raise JSONDecodeError
  end.

(** One value at the start of the text, with [depth] arrays and objects
    still free to be opened.  An array or an object goes on with
    [scan_items] or [scan_members]. *)
Definition scan_value (depth : nat)
  (scan_items : list json -> string -> result (json * string))
  (scan_members : list (string * json) -> string -> result (json * string))
  (s : string) : result (json * string) :=
  match s with
  | EmptyString => Raise JSONDecodeError
  | String c r =>
      if Ascii.eqb c dquote then
        match scanstring r with
        | Some (x, r') => Ok (JStr x, r')
        | None => Raise JSONDecodeError
        end
      else if Ascii.eqb c "{"%char then
        match depth with
        | O => Raise RecursionError
        | S _ =>
            match skip_ws r with
            | EmptyString => Raise JSONDecodeError
            | String c1 r1 =>
                if Ascii.eqb c1 "}"%char then Ok (JDict [], r1)
                else scan_members [] (String c1 r1)
            end
        end
      else if Ascii.eqb c "["%char then
        match depth with
        | O => Raise RecursionError
        | S _ =>
            match skip_ws r with
            | EmptyString => Raise JSONDecodeError
            | String c1 r1 =>
                if Ascii.eqb c1 "]"%char then Ok (JList [], r1)
                else scan_items [] (String c1 r1)
            end
        end
      else if Ascii.eqb c "n"%char then found (scan_literal "ull" JNull r)
      else if Ascii.eqb c "t"%char then found (scan_literal "rue" (JBool true) r)
      else if Ascii.eqb c "f"%char then found (scan_literal "alse" (JBool false) r)
      else
        match scan_number s with
        | Ok (n, r') => Ok (JNum n, r')
        | Raise JSONDecodeError => found (scan_constant s)
        | Raise e => Raise e
        end
  end.

(** One turn of the loop over the items of an array: a value, then the
    closing bracket or a comma and the next turn. *)
Definition scan_item
  (scan_once : string -> result (json * string))
  (scan_items : list json -> string -> result (json * string))
  (acc : list json) (s : string) : result (json * string) :=
  match scan_once s with
  | Raise e => Raise e
  | Ok (v, r) =>
      match skip_ws r with
      | EmptyString => Raise JSONDecodeError
      | String c r' =>
          if Ascii.eqb c "]"%char then Ok (JList (acc ++ [v])%list, r')
          else if Ascii.eqb c ","%char then scan_items (acc ++ [v])%list (skip_ws r')
          else Raise JSONDecodeError
      end
  end.

(** One turn of the loop over the members of an object, from the quote of
    the key on: key, colon, value, then the closing brace or a comma and
    the next turn. *)
Definition scan_member
  (scan_once : string -> result (json * string))
  (scan_members : list (string * json) -> string -> result (json * string))
  (acc : list (string * json)) (s : string) : result (json * string) :=
  match s with
  | EmptyString => Raise JSONDecodeError
  | String q r =>
      if Ascii.eqb q dquote then
        match scanstring r with
        | None => Raise JSONDecodeError
        | Some (key, r1) =>
            match skip_ws r1 with
            | EmptyString => Raise JSONDecodeError
            | String c2 r2 =>
                if Ascii.eqb c2 ":"%char then
                  match scan_once (skip_ws r2) with
                  | Raise e => Raise e
                  | Ok (v, r3) =>
                      match skip_ws r3 with
                      | EmptyString => Raise JSONDecodeError
                      | String c4 r4 =>
                          if Ascii.eqb c4 "}"%char then
                            Ok (JDict (dict_set key v acc), r4)
                          else if Ascii.eqb c4 ","%char then
                            scan_members (dict_set key v acc) (skip_ws r4)
                          else Raise JSONDecodeError
                      end
                  end
                else Raise JSONDecodeError
            end
        end
      else Raise JSONDecodeError
  end.

(** The scanner and its two loops.  [depth] is the interpreter's: the
    arrays and objects that may still be opened, one less inside each.
    [fuel] is the model's: it bounds the calls, turns of the loops
    included, and what is returned without any is never seen, since the
    driver hands out enough ([loads_fuel_stable] below). *)
Fixpoint scan_once (fuel depth : nat) (s : string) {struct fuel}
  : result (json * string) :=
  match fuel with
  | O => Raise RecursionError
  | S fuel' =>
      scan_value depth (scan_items fuel' (pred depth)) (scan_members fuel' (pred depth)) s
  end

with scan_items (fuel depth : nat) (acc : list json) (s : string) {struct fuel}
  : result (json * string) :=
  match fuel with
  | O => Raise RecursionError
  | S fuel' => scan_item (scan_once fuel' depth) (scan_items fuel' depth) acc s
  end

with scan_members (fuel depth : nat) (acc : list (string * json)) (s : string)
  {struct fuel} : result (json * string) :=
  match fuel with
  | O => Raise RecursionError
  | S fuel' => scan_member (scan_once fuel' depth) (scan_members fuel' depth) acc s
  end.

(** The driver: blanks, one value, blanks, end of text. *)
Definition loads_fuel (fuel limit : nat) (s : string) : result json :=
  match scan_once fuel limit (skip_ws s) with
  | Ok (v, r) =>
      match skip_ws r with
      | EmptyString => Ok v
      | String _ _ => Raise JSONDecodeError
      end
  | Raise e => Raise e
  end.

(** [json.loads(s)] in an interpreter that lets [limit] arrays and objects
    be open at once.  Each call reads at least one character before the
    next nested call or leaves two behind it, so twice the length of the
    text is fuel enough. *)
Definition loads (limit : nat) (s : string) : result json :=
  loads_fuel (2 * String.length s + 2) limit s.

End JsonDecoder.

(* ====================================================================== *)
(** ** The script *)
(* ====================================================================== *)

(** *** Configuration (lines 24-31) *)

Definition SF_CLI_PATH : string := "/usr/local/bin/sf".

Definition OBJECTS : list string :=
  ["Account"; "Contact"; "Case"; "Opportunity"; "Order"; "Asset"].

Definition EXPORT_DIRECTORY : string := "./exports".

(** The object type a kept field must reference; the script spells it out
    in both copies of the loop (lines 138 and 152). *)
Definition anchorType : string := "Account".

(** *** Step 2: the fields that reference the anchor (lines 127-163) *)

(** The loop over the fields runs with [field_list] as its state; an
    exception leaves the list as it was when it was raised. *)
Definition Scan (A : Type) : Type := list json -> list json * result A.

Definition scan_ret {A : Type} (a : A) : Scan A := fun field_list => (field_list, Ok a).

Definition scan_bind {A B : Type} (c : Scan A) (k : A -> Scan B) : Scan B :=
  fun field_list =>
    match c field_list with
    | (field_list', Ok a) => k a field_list'
    | (field_list', Raise e) => (field_list', Raise e)
    end.

Definition lift {A : Type} (r : result A) : Scan A := fun field_list => (field_list, r).

(** [field_list.append(v)] *)
Definition append (v : json) : Scan unit := fun field_list => ((field_list ++ [v])%list, Ok tt).

Notation "x <~ c1 ;; c2" := (scan_bind c1 (fun x => c2))
  (at level 61, c1 at next level, right associativity).

(** The test of lines 137-138 and 151-152:
    ['referenceTo' in field and isinstance(field['referenceTo'], list)
     and 'Account' in field['referenceTo']]. *)
Definition references_anchor (field : json) : result bool :=
  has <- contains "referenceTo" field ;;
  if has then
    refs <- getitem field "referenceTo" ;;
    if isinstance_list refs then contains anchorType refs else Ok false
  else Ok false.

(** The body of the loop (lines 136-143 and 151-157).  The last three
    reads only feed the debug line of lines 143 and 157, which comes after
    the name was recorded: its [', '.join] can raise, and so can its
    [print]. *)
Definition scan_field (field : json) : Scan unit :=
  cond <~ lift (references_anchor field) ;;
  if cond then
    field_name <~ lift (get field "name" (JStr "")) ;;
    _ <~ append field_name ;;
    field_type <~ lift (get field "type" (JStr "unknown")) ;;
    refs <~ lift (getitem field "referenceTo") ;;
    references <~ lift (join ", " (list_items refs)) ;;
    lift (print [field_name; field_type; JStr references])
  else scan_ret tt.

(** [for field in fields: ...] *)
Fixpoint for_each_field (fields : list json) : Scan unit :=
  match fields with
  | [] => scan_ret tt
  | field :: rest => _ <~ scan_field field ;; for_each_field rest
  end.

(** The test of lines 130-131: ['result' in describe_data and 'fields' in
    describe_data['result'] and isinstance(describe_data['result']['fields'], list)]. *)
Definition result_fields_is_list (describe_data : json) : result bool :=
  has_result <- contains "result" describe_data ;;
  if has_result then
    res <- getitem describe_data "result" ;;
    has_fields <- contains "fields" res ;;
    if has_fields then
      res <- getitem describe_data "result" ;;
      fields <- getitem res "fields" ;;
      Ok (isinstance_list fields)
    else Ok false
  else Ok false.

(** The test of line 146: ['fields' in describe_data and
    isinstance(describe_data['fields'], list)]. *)
Definition direct_fields_is_list (describe_data : json) : result bool :=
  has_fields <- contains "fields" describe_data ;;
  if has_fields then
    fields <- getitem describe_data "fields" ;;
    Ok (isinstance_list fields)
  else Ok false.

(** The text of line 160: [', '.join(describe_data.get('result', {}).keys())
    if 'result' in describe_data else 'N/A']. *)
Definition result_keys (describe_data : json) : result string :=
  has_result <- contains "result" describe_data ;;
  if has_result then
    res <- get describe_data "result" (JDict []) ;;
    ks <- keys res ;;
    Ok (join_strs ", " ks)
  else Ok "N/A".

(** Lines 130-161: find the list of fields and scan it; without a list,
    print the keys of [result] (line 161).  The debug lines 133 and 148
    show a count and cannot fail. *)
Definition collect_fields (describe_data : json) : Scan unit :=
  nested <~ lift (result_fields_is_list describe_data) ;;
  if nested then
    res <~ lift (getitem describe_data "result") ;;
    fields <~ lift (getitem res "fields") ;;
    for_each_field (list_items fields)
  else
    direct <~ lift (direct_fields_is_list describe_data) ;;
    if direct then
      fields <~ lift (getitem describe_data "fields") ;;
      for_each_field (list_items fields)
    else
      text <~ lift (result_keys describe_data) ;;
      lift (print [JStr text]).

(** Lines 106-107: the debug line with the keys of the response. *)
Definition top_level_keys (describe_data : json) : result unit :=
  if truthy describe_data then
    ks <- keys describe_data ;;
    print [JStr (join_strs ", " ks)]
  else Ok tt.

(** Lines 105-163 as a whole: [field_list] as line 166 finds it.  The
    debug line 163 shows a count and cannot fail. *)
Definition lookup_fields (describe_data : json) : result (list json) :=
  _ <- top_level_keys describe_data ;;
  match collect_fields describe_data [] with
  | (field_list, Ok _) => Ok field_list
  | (_, Raise e) => Raise e
  end.

(** *** Step 3: the query (lines 184-186) *)

(** Line 184 on field names that are strings:
    [list(dict.fromkeys(['Id'] + field_list))]. *)
Definition select_fields (names : list string) : list string :=
  fromkeys ("Id" :: names).

(** Lines 185-186: [select_clause] and [query]. *)
Definition query_of (obj : string) (field_list : list string) : string :=
  let select_clause := join_strs ", " field_list in
  "SELECT " ++ select_clause ++ " FROM " ++ obj.

(** Lines 184-186 on the names the scan recorded.  A name that is not a
    string raises [TypeError]: [dict.fromkeys] rejects a list or an object
    as unhashable on line 184, and [', '.join] rejects every other value on
    line 185.  Nothing can be observed between the two lines, so the names
    are checked first. *)
Definition build_query (obj : string) (field_list : list json) : result string :=
  match all_strs field_list with
  | Some names => Ok (query_of obj (select_fields names))
  | None => Raise TypeError
  end.

(** *** The commands (lines 65-71 and 216-223) *)

Definition describe_command (obj : string) : list string :=
  [SF_CLI_PATH; "force:schema:sobject:describe";
   "--target-org"; "PROD"; "--sobjecttype"; obj; "--json"].

Definition export_command (query output_path : string) : list string :=
  [SF_CLI_PATH; "data"; "export"; "bulk";
   "--target-org"; "PROD"; "--query"; query;
   "--output-file"; output_path; "--wait"; "30"].

Definition describe_file (obj : string) : string :=
  EXPORT_DIRECTORY ++ "/" ++ obj ++ "_describe.json".

Definition output_path (obj : string) : string :=
  EXPORT_DIRECTORY ++ "/" ++ obj ++ "_export.csv".

(** *** The operating system *)

(** What [subprocess.run] hands back. *)
Record completed : Type := {
  stdout : string;
  stderr : string;
  returncode : Z
}.

(** The calls the script makes on its environment, over any state [World]
    of that environment (file system, remote org):
    - [subprocess_run cmd]: [subprocess.run(cmd, check=False, ...)], [None]
      when the call itself raises (the executable cannot be started, the
      output cannot be decoded);
    - [write_text path content]: [open(path, 'w')] and [f.write(content)];
    - [path_exists path]: [os.path.exists(path)];
    - [mkdir path]: [Path(path).mkdir(parents=True, exist_ok=True)].
    Writing the dump and making the directory are taken to succeed: the
    disk takes them, and the two outputs, which [subprocess.run] decoded
    strictly, hold no lone surrogate that would keep the dump from being
    encoded. *)
Record os (World : Type) : Type := {
  subprocess_run : list string -> World -> option completed * World;
  write_text : string -> string -> World -> World;
  path_exists : string -> World -> bool;
  mkdir : string -> World -> World
}.
Arguments subprocess_run {World} _ _ _.
Arguments write_text {World} _ _ _ _.
Arguments path_exists {World} _ _ _.
Arguments mkdir {World} _ _ _.

(** How one object type ends, by the message the script prints for it. *)
Inductive outcome : Type :=
| InvocationFailed        (* line 88: Failed to run describe command *)
| UnparseableResponse     (* line 102: Failed to parse JSON *)
| NoQualifyingFields      (* line 167: No queryable fields found *)
| Succeeded               (* line 251: Successfully exported *)
| Failed (exit_code : Z). (* line 253: Export failed *)

(** What the script does to its environment, in order. *)
Inductive event : Type :=
| Ran (command : list string)
| Wrote (path content : string)
| Reported (obj : string) (o : outcome).

(** How the whole run ends: with the banner of line 258, or with an
    exception nothing caught. *)
Inductive ending : Type :=
| Completed
| Aborted (e : exn).

Section Script.

Context {World : Type}.
Variable sys : os World.

(** The parser behind [json.loads]; [main] below plugs in the decoder. *)
Variable json_loads : string -> result json.

(** Steps 4 and 5 (lines 214-253): run the export and check it.  The
    debug line 225 prints the command with the query in it; the names in
    the query have all been printed by line 143 or 157 before, so this
    line cannot fail where those did not ([export_command_is_printable]
    below). *)
Definition run_export (obj query : string) (w : World)
  : World * list event * outcome :=
  let export_command := export_command query (output_path obj) in
  let (ran, w') := subprocess_run sys export_command w in
  let exit_code :=
    match ran with
    | Some result => returncode result
    | None => (-1)%Z
    end in
  (w', [Ran export_command],
   if (exit_code =? 0)%Z && path_exists sys (output_path obj) w'
   then Succeeded else Failed exit_code).

(** Lines 105-255: what follows a response that parsed. *)
Definition export_described (obj : string) (describe_data : json) (w : World)
  : World * list event * result outcome :=
  match lookup_fields describe_data with
  | Raise e => (w, [], Raise e)
  | Ok [] => (w, [], Ok NoQualifyingFields)
  | Ok field_list =>
      match build_query obj field_list with
      | Raise e => (w, [], Raise e)
      | Ok query =>
          let '(w', events, o) := run_export obj query w in
          (w', events, Ok o)
      end
  end.

(** The body of the main loop (lines 42-256) for one object type.  The
    handler of line 101 catches [JSONDecodeError] and nothing else that
    [json.loads] raises. *)
Definition process_object (obj : string) (w : World)
  : World * list event * result outcome :=
  let describe_command := describe_command obj in
  match subprocess_run sys describe_command w with
  | (None, w1) => (w1, [Ran describe_command], Ok InvocationFailed)
  | (Some result, w1) =>
      let describe_output := stdout result ++ stderr result in
      let w2 := write_text sys (describe_file obj) describe_output w1 in
      let done := [Ran describe_command; Wrote (describe_file obj) describe_output] in
      match json_loads describe_output with
      | Raise JSONDecodeError => (w2, done, Ok UnparseableResponse)
      | Raise e => (w2, done, Raise e)
      | Ok describe_data =>
          let '(w3, events, r) := export_described obj describe_data w2 in
          (w3, (done ++ events)%list, r)
      end
  end.

(** [for obj in OBJECTS: ...]: an exception that leaves the body ends the
    script; otherwise the loop goes on to the next object type. *)
Fixpoint run_objects (objs : list string) (w : World)
  : World * list event * ending :=
  match objs with
  | [] => (w, [], Completed)
  | obj :: rest =>
      match process_object obj w with
      | (w', events, Raise e) => (w', events, Aborted e)
      | (w', events, Ok o) =>
          let '(w'', later, e) := run_objects rest w' in
          (w'', (events ++ Reported obj o :: later)%list, e)
      end
  end.

(** The script: line 34, then the loop, then the banner of line 258. *)
Definition script (w : World) : World * list event * ending :=
  run_objects OBJECTS (mkdir sys EXPORT_DIRECTORY w).

End Script.

(** The script as it runs, with Python's decoder, in an interpreter that
    lets [limit] arrays and objects be open at once. *)
Definition main {World : Type} (limit : nat) (sys : os World) (w : World)
  : World * list event * ending :=
  script sys (JsonDecoder.loads limit) w.

(* ====================================================================== *)
(** ** A scripted environment *)
(* ====================================================================== *)

(** A small concrete environment, used to run the script on examples: the
    state is the list of paths that exist, and every command is answered
    from a table. *)
Module Scripted.

Record reply : Type := {
  answer : option completed;
  leaves : list string
}.

Definition env (table : list string -> reply) : os (list string) := {|
  subprocess_run := fun command paths =>
    (answer (table command), (leaves (table command) ++ paths)%list);
  write_text := fun path _ paths => path :: paths;
  path_exists := fun path paths => existsb (String.eqb path) paths;
  mkdir := fun path paths => path :: paths
|}.

(** A quoted JSON string (without escapes). *)
Definition q (s : string) : string :=
  String JsonDecoder.dquote (s ++ String JsonDecoder.dquote "").

Definition newline : string := String "010"%char "".

(** The describe response of scenario 1 of the specification. *)
Definition contact_describe : string :=
  "{" ++ q "result" ++ ":{" ++ q "fields" ++ ":["
  ++ "{" ++ q "name" ++ ":" ++ q "Id" ++ "},"
  ++ "{" ++ q "name" ++ ":" ++ q "AccountId" ++ ","
         ++ q "referenceTo" ++ ":[" ++ q "Account" ++ "]},"
  ++ "{" ++ q "name" ++ ":" ++ q "OwnerId" ++ ","
         ++ q "referenceTo" ++ ":[" ++ q "User" ++ "]}"
  ++ "]}}".

Definition is_describe (command : list string) : bool :=
  String.eqb (nth 1 command "") "force:schema:sobject:describe".

(** A CLI that answers every describe with [out] and [err], and every
    export with [export] while leaving [files] behind. *)
Definition cli (out err : string) (export : option Z) (files : list string)
  (command : list string) : reply :=
  if is_describe command then
    {| answer := Some {| stdout := out; stderr := err; returncode := 0 |};
       leaves := [] |}
  else
    {| answer :=
         match export with
         | Some code => Some {| stdout := ""; stderr := ""; returncode := code |}
         | None => None
         end;
       leaves := files |}.

Definition owner_only_describe : string :=
  "{" ++ q "fields" ++ ":[{" ++ q "name" ++ ":"
  ++ q "OwnerId" ++ "," ++ q "referenceTo" ++ ":["
  ++ q "User" ++ "]}]}".

(** The nesting that an interpreter under its usual recursion limit leaves
    to the decoder where the script calls it. *)
Definition limit : nat := 990.

(** The lookup field of scenario 1, as an entry of the field list and as
    the text of one. *)
Definition account_lookup : json :=
  JDict [("name", JStr "AccountId"); ("referenceTo", JList [JStr "Account"])].

Definition account_lookup_text : string :=
  "{" ++ q "name" ++ ":" ++ q "AccountId" ++ ","
  ++ q "referenceTo" ++ ":[" ++ q "Account" ++ "]}".

(** A response whose list of fields holds [null] in front of that entry. *)
Definition null_entry_describe : string :=
  "{" ++ q "fields" ++ ":[null," ++ account_lookup_text ++ "]}".

(** A response whose [result] is [null]. *)
Definition null_result_describe : string :=
  "{" ++ q "result" ++ ": null}".

(** [n] arrays, each opened inside the one before. *)
Fixpoint brackets (n : nat) : string :=
  match n with
  | O => ""
  | S n' => String "["%char (brackets n')
  end.

(** An integer of [n] digits. *)
Fixpoint digits (n : nat) : string :=
  match n with
  | O => ""
  | S n' => String "1"%char (digits n')
  end.

End Scripted.

(* ====================================================================== *)
(** ** The words of the specification *)
(* ====================================================================== *)

(** *** Field entries *)

(** The reading of a field entry that the specification gives: its set of
    referenced object types and its name. *)

(** The referenced object types an entry declares: the items of its
    [referenceTo] when the entry is an object that holds a list there, and
    none otherwise. *)
Definition referenced_types (field : json) : list json :=
  match field with
  | JDict members =>
      match dict_lookup "referenceTo" members with
      | Some (JList refs) => refs
      | _ => []
      end
  | _ => []
  end.

(** An entry qualifies when that set is not empty and holds the anchor
    type: one of its items is the very string [anchorType]. *)
Definition qualifies (field : json) : Prop :=
  referenced_types field <> [] /\ In (JStr anchorType) (referenced_types field).

Definition qualifiesb (field : json) : bool :=
  match referenced_types field with
  | [] => false
  | refs => existsb (eq_str anchorType) refs
  end.

(** The name of an entry, empty when it has none. *)
Definition name_of (field : json) : json :=
  match field with
  | JDict members =>
      match dict_lookup "name" members with
      | Some n => n
      | None => JStr ""
      end
  | _ => JStr ""
  end.

(** The declared type of an entry, [unknown] when it has none. *)
Definition type_of (field : json) : json :=
  match field with
  | JDict members =>
      match dict_lookup "type" members with
      | Some t => t
      | None => JStr "unknown"
      end
  | _ => JStr "unknown"
  end.

(** What stops the scan at an entry, by the shape of the entry.
    - An entry that is no object: [null], a boolean and a number cannot be
      asked whether they hold [referenceTo]; a string or a list that does
      hold it cannot be indexed by it.
    - An object that qualifies is recorded and then shown on the debug
      line: its referenced types must all be strings to be joined, and
      name, type and referenced types must hold no lone surrogate to be
      printed.
    - An object that does not qualify is passed over. *)
Definition entry_exception (field : json) : option exn :=
  match field with
  | JDict _ =>
      if qualifiesb field then
        match all_strs (referenced_types field) with
        | None => Some TypeError
        | Some types =>
            if printable (name_of field) && printable (type_of field)
               && negb (existsb has_surrogate types)
            then None
            else Some UnicodeEncodeError
        end
      else None
  | JStr s => if str_contains "referenceTo" s then Some TypeError else None
  | JList items =>
      if existsb (eq_str "referenceTo") items then Some TypeError else None
  | _ => Some TypeError
  end.

(** An entry of the documented shape: an object at which nothing stops the
    scan.  When it qualifies, its referenced types are strings, and they,
    its name and its type hold no lone surrogate. *)
Definition documented_entry (field : json) : Prop :=
  (exists members, field = JDict members) /\ entry_exception field = None.

(** The entries the scan gets to: every entry up to the first one that
    stops it, that one included. *)
Fixpoint reached (fields : list json) : list json :=
  match fields with
  | [] => []
  | field :: rest =>
      match entry_exception field with
      | None => field :: reached rest
      | Some _ => [field]
      end
  end.

(** What stops the scan of a list of entries: what stops it at the first
    entry that does. *)
Fixpoint first_exception (fields : list json) : option exn :=
  match fields with
  | [] => None
  | field :: rest =>
      match entry_exception field with
      | None => first_exception rest
      | Some e => Some e
      end
  end.

(** *** Selected fields *)

(** The specification's wording of the selected fields: the names in their
    order, leaving out every name that is already there. *)
Fixpoint keep_first (seen names : list string) : list string :=
  match names with
  | [] => []
  | n :: rest =>
      if existsb (String.eqb n) seen then keep_first seen rest
      else n :: keep_first (n :: seen) rest
  end.

(** *** The search for the field list *)

(** The specification's search: the nested list [result.fields] first, the
    top-level list [fields] second, no fields when neither is a list. *)
Definition nested_fields (describe_data : json) : option (list json) :=
  match describe_data with
  | JDict members =>
      match dict_lookup "result" members with
      | Some (JDict res) =>
          match dict_lookup "fields" res with
          | Some (JList fields) => Some fields
          | _ => None
          end
      | _ => None
      end
  | _ => None
  end.

Definition direct_fields (describe_data : json) : option (list json) :=
  match describe_data with
  | JDict members =>
      match dict_lookup "fields" members with
      | Some (JList fields) => Some fields
      | _ => None
      end
  | _ => None
  end.

Definition located_fields (describe_data : json) : list json :=
  match nested_fields describe_data with
  | Some fields => fields
  | None =>
      match direct_fields describe_data with
      | Some fields => fields
      | None => []
      end
  end.

(** A response of the documented shape: an object whose [result], when it
    has one, is an object too. *)
Definition documented_response (describe_data : json) : Prop :=
  exists members,
    describe_data = JDict members /\
    match dict_lookup "result" members with
    | Some (JDict _) => True
    | Some _ => False
    | None => True
    end.

(** The keys of [result] that line 161 shows when no list of fields was
    found, on a response of the documented shape. *)
Definition result_keys_shown (describe_data : json) : list string :=
  match describe_data with
  | JDict members =>
      match nested_fields describe_data, direct_fields describe_data with
      | None, None =>
          match dict_lookup "result" members with
          | Some (JDict res) => map fst res
          | _ => []
          end
      | _, _ => []
      end
  | _ => []
  end.

(** The keys that the debug lines 107 and 161 show for a response of the
    documented shape: its own, and those of its [result] when no list of
    fields is found. *)
Definition shown_keys (describe_data : json) : list string :=
  match describe_data with
  | JDict members => (map fst members ++ result_keys_shown describe_data)%list
  | _ => []
  end.

(** *** Texts and scanners *)

(** The last character of a text. *)
Fixpoint last_char (s : string) : option ascii :=
  match s with
  | EmptyString => None
  | String c EmptyString => Some c
  | String _ r => last_char r
  end.

Module Shape.
Import JsonDecoder.

(** A character that can carry a number on: a digit, the dot, or the letter
    of an exponent. *)
Definition number_char (c : ascii) : bool :=
  is_digit c || Ascii.eqb c "."%char || Ascii.eqb c "e"%char || Ascii.eqb c "E"%char.

(** A text at whose start no number can go on. *)
Definition terminated (s : string) : Prop :=
  match s with
  | EmptyString => True
  | String c _ => number_char c = false
  end.

(** The values whose text ends where the digits end. *)
Definition ends_number (v : json) : bool :=
  match v with
  | JNum (NInt _) => true
  | JNum (NDec _ _) => true
  | _ => false
  end.

(** A text whose last character is a digit. *)
Definition ends_in_digit (s : string) : bool :=
  match last_char s with
  | Some c => is_digit c
  | None => false
  end.

(** No text but blanks. *)
Definition blank (s : string) : Prop := skip_ws s = EmptyString.

(** The digits stop where they stopped when the next character is no
    digit. *)
Definition no_digit_ahead (s : string) : Prop :=
  match s with
  | EmptyString => True
  | String c _ => is_digit c = false
  end.

(** No digit and no dot ahead. *)
Definition no_fraction_ahead (s : string) : Prop :=
  match s with
  | EmptyString => True
  | String c _ => is_digit c = false /\ Ascii.eqb c "."%char = false
  end.

(** What was read of [s] up to [r] ends in a digit. *)
Definition read_to_digit (s r : string) : Prop :=
  exists literal, s = literal ++ r /\ ends_in_digit literal = true.

(** A scanner reads the same from the longer text. *)
Definition stable_once (t : string) (once : string -> result (json * string)) : Prop :=
  forall s v r,
    once s = Ok (v, r) ->
    (ends_number v = true -> terminated (r ++ t)) ->
    once (s ++ t) = Ok (v, r ++ t).

Definition stable_loop {A : Type} (t : string)
  (loop : A -> string -> result (json * string)) : Prop :=
  forall acc s v r,
    loop acc s = Ok (v, r) -> loop acc (s ++ t) = Ok (v, r ++ t).

Definition fails_on_empty {A : Type} (loop : A -> string -> result (json * string)) : Prop :=
  forall acc x, loop acc "" <> Ok x.

(** A scanner that leaves less than it was given. *)
Definition shrinks_once (once : string -> result (json * string)) : Prop :=
  forall s v r, once s = Ok (v, r) -> String.length r < String.length s.

Definition shrinks_loop {A : Type} (loop : A -> string -> result (json * string)) : Prop :=
  forall acc s v r, loop acc s = Ok (v, r) -> String.length r < String.length s.

(** Two scanners that do the same on texts of at most [len] characters. *)
Definition agrees_once (len : nat) (once once' : string -> result (json * string)) : Prop :=
  forall s, String.length s <= len -> once s = once' s.

Definition agrees_loop {A : Type} (len : nat)
  (loop loop' : A -> string -> result (json * string)) : Prop :=
  forall acc s, String.length s <= len -> loop acc s = loop' acc s.

(** The exceptions of the decoder. *)
Definition decoder_exception (e : exn) : Prop :=
  e = JSONDecodeError \/ e = ValueError \/ e = RecursionError.

(** A scanner that raises those and no other. *)
Definition raises_decoder_exceptions {A : Type} (r : result A) : Prop :=
  match r with
  | Ok _ => True
  | Raise e => decoder_exception e
  end.

(** A loop that returns an array, or an object. *)
Definition returns_list {A : Type} (loop : A -> string -> result (json * string)) : Prop :=
  forall acc s v r, loop acc s = Ok (v, r) -> exists items, v = JList items.

Definition returns_dict {A : Type} (loop : A -> string -> result (json * string)) : Prop :=
  forall acc s v r, loop acc s = Ok (v, r) -> exists members, v = JDict members.

End Shape.

(** *** Runs *)

(** The object types a trace reports on, in order. *)
Fixpoint reported (events : list event) : list string :=
  match events with
  | [] => []
  | Reported obj _ :: rest => obj :: reported rest
  | _ :: rest => reported rest
  end.

(** The describe commands, by their subcommand. *)
Definition is_describe_command (command : list string) : bool :=
  match command with
  | _ :: subcommand :: _ => String.eqb subcommand "force:schema:sobject:describe"
  | _ => false
  end.

(** An environment in which every describe command that runs ends with the
    exit code [code], everything else being as in [sys]. *)
Definition with_describe_code {World : Type} (code : Z) (sys : os World) : os World := {|
  subprocess_run := fun command w =>
    if is_describe_command command then
      match subprocess_run sys command w with
      | (Some result, w') =>
          (Some {| stdout := stdout result; stderr := stderr result;
                   returncode := code |}, w')
      | (None, w') => (None, w')
      end
    else subprocess_run sys command w;
  write_text := write_text sys;
  path_exists := path_exists sys;
  mkdir := mkdir sys
|}.

(** The exceptions that can end the run: those of the operations on a
    parsed response that has not the expected shape, that of [print], and
    the two that [json.loads] raises beside the one line 101 catches. *)
Definition ends_a_run (e : exn) : Prop :=
  e = TypeError \/ e = AttributeError \/ e = UnicodeEncodeError \/
  e = ValueError \/ e = RecursionError.

(** The exceptions of the search for the fields and of the scan. *)
Definition lookup_exception (e : exn) : Prop :=
  e = TypeError \/ e = AttributeError \/ e = UnicodeEncodeError.

Definition raises_lookup_exceptions {A : Type} (r : result A) : Prop :=
  match r with
  | Ok _ => True
  | Raise e => lookup_exception e
  end.

(* ====================================================================== *)
(** ** Properties of the field scan *)
(* ====================================================================== *)

Lemma eq_str_true (needle : string) (v : json) :
  eq_str needle v = true <-> v = JStr needle.
Proof.
  destruct v; simpl; try (split; [discriminate | intros H; discriminate H]).
  rewrite String.eqb_eq. split; intros H; [now subst | now inversion H].
Qed.

Lemma existsb_eq_str (needle : string) (items : list json) :
  existsb (eq_str needle) items = true <-> In (JStr needle) items.
Proof.
  rewrite existsb_exists. split.
  - intros (v & Hin & Hv). apply eq_str_true in Hv. now subst.
  - intros Hin. exists (JStr needle). split; [assumption | now apply eq_str_true].
Qed.

Lemma qualifiesb_spec (field : json) : qualifiesb field = true <-> qualifies field.
Proof.
  unfold qualifiesb, qualifies.
  destruct (referenced_types field) as [|r refs] eqn:E.
  - split; [discriminate | intros [H _]; now elim H].
  - rewrite existsb_eq_str. split; [intros H; split; [discriminate | exact H] | tauto].
Qed.

Lemma dict_has_lookup (k : string) (d : list (string * json)) :
  dict_has k d = match dict_lookup k d with Some _ => true | None => false end.
Proof.
  unfold dict_has. induction d as [|[k' v] d IH]; simpl; [reflexivity|].
  destruct (String.eqb k' k); simpl; [reflexivity | exact IH].
Qed.

(** The test the loop applies, on an object: it never raises there, and it
    is the specification's reading of the entry. *)
Lemma references_anchor_dict (members : list (string * json)) :
  references_anchor (JDict members) = Ok (qualifiesb (JDict members)).
Proof.
  unfold references_anchor, qualifiesb, referenced_types. simpl.
  rewrite dict_has_lookup.
  destruct (dict_lookup "referenceTo" members) as [v|]; simpl; [|reflexivity].
  destruct v; simpl; try reflexivity.
  now destruct items.
Qed.

(** On anything but an object the test is false or raises; either way the
    entry is dropped. *)
Lemma references_anchor_other (field : json) :
  (forall members, field <> JDict members) ->
  references_anchor field <> Ok true.
Proof.
  intros Hd. unfold references_anchor.
  destruct field; simpl; try discriminate.
  - destruct (str_contains "referenceTo" s); simpl; discriminate.
  - destruct (existsb (eq_str "referenceTo") items); simpl; discriminate.
  - now elim (Hd members).
Qed.

(** *** Lone surrogates in a line *)

(** A text put behind another brings no surrogate about where the two
    meet, when it starts below the byte 160. *)
Lemma has_surrogate_app (a : string) (c : ascii) (b : string) :
  (N_of_ascii c <? 160)%N = true ->
  has_surrogate (a ++ String c b) = has_surrogate a || has_surrogate (String c b).
Proof.
  intros Hc.
  assert (Hlow : (160 <=? N_of_ascii c)%N = false).
  { apply N.leb_gt. now apply N.ltb_lt. }
  induction a as [|x a IH]; [reflexivity|].
  change (String x a ++ String c b) with (String x (a ++ String c b)).
  change (has_surrogate (String x (a ++ String c b)))
    with (((N_of_ascii x =? 237)%N &&
           match a ++ String c b with
           | String d _ => (160 <=? N_of_ascii d)%N
           | EmptyString => false
           end) || has_surrogate (a ++ String c b)).
  rewrite IH. destruct a as [|y a].
  - change ("" ++ String c b) with (String c b). cbv iota.
    rewrite Hlow, andb_false_r. cbn [has_surrogate].
    now rewrite andb_false_r.
  - change (String y a ++ String c b) with (String y (a ++ String c b)). cbv iota.
    change (has_surrogate (String x (String y a)))
      with (((N_of_ascii x =? 237)%N && (160 <=? N_of_ascii y)%N)
            || has_surrogate (String y a)).
    now rewrite orb_assoc.
Qed.

(** A line joined with a separator holds a lone surrogate exactly when one
    of the joined strings does, for a separator that starts below the
    byte 160 and brings none about in front of a string. *)
Lemma has_surrogate_join_with (c : ascii) (sep : string) (items : list string) :
  (N_of_ascii c <? 160)%N = true ->
  (forall y, has_surrogate (String c sep ++ y) = has_surrogate y) ->
  has_surrogate (join_strs (String c sep) items) = existsb has_surrogate items.
Proof.
  intros Hc Hsep.
  destruct items as [|x rest]; [reflexivity|]. cbn [join_strs existsb].
  revert x. induction rest as [|y rest IH]; intros x; cbn [fold_left existsb].
  - now rewrite orb_false_r.
  - rewrite IH.
    change (String c sep ++ y) with (String c (sep ++ y)).
    rewrite (has_surrogate_app x c (sep ++ y) Hc).
    change (String c (sep ++ y)) with (String c sep ++ y).
    now rewrite Hsep, orb_assoc.
Qed.

(** [', '.join], as on the debug lines 107, 143, 157 and 160. *)
Lemma has_surrogate_join (items : list string) :
  has_surrogate (join_strs ", " items) = existsb has_surrogate items.
Proof. now apply has_surrogate_join_with. Qed.

(** [' '.join], as on the debug line 225. *)
Lemma has_surrogate_join_blank (items : list string) :
  has_surrogate (join_strs " " items) = existsb has_surrogate items.
Proof. now apply has_surrogate_join_with. Qed.

(** *** One turn of the loop *)

(** What one turn of the loop does: it records the name of an entry that
    qualifies, and it raises what the shape of the entry makes it raise. *)
Lemma scan_field_turn (field : json) (field_list : list json) :
  scan_field field field_list
  = (if qualifiesb field then (field_list ++ [name_of field])%list else field_list,
     match entry_exception field with
     | None => Ok tt
     | Some e => Raise e
     end).
Proof.
  unfold scan_field, scan_bind, lift, append, scan_ret.
  destruct field as [| b | n | s | items | members]; try reflexivity.
  - unfold references_anchor. cbn.
    destruct (str_contains "referenceTo" s); reflexivity.
  - unfold references_anchor. cbn.
    destruct (existsb (eq_str "referenceTo") items); reflexivity.
  - rewrite references_anchor_dict. unfold entry_exception.
    destruct (qualifiesb (JDict members)) eqn:Hq; [|reflexivity].
    unfold qualifiesb in Hq. unfold referenced_types in *.
    unfold name_of, type_of. cbn [get getitem].
    destruct (dict_lookup "referenceTo" members) as [[]|]; try discriminate.
    unfold join. cbn [list_items].
    destruct (all_strs items) as [types|].
    + unfold print. cbn [forallb printable].
      rewrite has_surrogate_join.
      destruct (dict_lookup "name" members) as [name|],
        (dict_lookup "type" members) as [type|];
        cbn [printable];
        repeat match goal with
               | |- context [printable ?v] => destruct (printable v)
               | |- context [existsb has_surrogate types] =>
                   destruct (existsb has_surrogate types)
               end; reflexivity.
    + destruct (dict_lookup "name" members), (dict_lookup "type" members); reflexivity.
Qed.

(** What one turn of the loop leaves in [field_list]. *)
Lemma scan_field_recorded (field : json) (field_list : list json) :
  fst (scan_field field field_list)
  = if qualifiesb field then (field_list ++ [name_of field])%list else field_list.
Proof. now rewrite scan_field_turn. Qed.

(** *** The whole loop *)

(** The loop over a list of entries, one part after the other. *)
Lemma for_each_field_app (fields1 fields2 : list json) (field_list : list json) :
  for_each_field (fields1 ++ fields2) field_list
  = match for_each_field fields1 field_list with
    | (field_list', Ok _) => for_each_field fields2 field_list'
    | (field_list', Raise e) => (field_list', Raise e)
    end.
Proof.
  revert field_list. induction fields1 as [|f fields1 IH]; intros field_list.
  - reflexivity.
  - simpl. unfold scan_bind.
    destruct (scan_field f field_list) as [fl' [[]|e]]; [apply IH | reflexivity].
Qed.

(** What the loop does: it records the names of the qualifying entries it
    gets to, in their order, and it raises what stops it, if anything
    does. *)
Lemma for_each_field_scan (fields : list json) (field_list : list json) :
  for_each_field fields field_list
  = ((field_list ++ map name_of (filter qualifiesb (reached fields)))%list,
     match first_exception fields with
     | None => Ok tt
     | Some e => Raise e
     end).
Proof.
  revert field_list. induction fields as [|f fields IH]; intros field_list.
  - cbn. unfold scan_ret. now rewrite app_nil_r.
  - cbn [for_each_field reached first_exception]. unfold scan_bind.
    rewrite scan_field_turn.
    destruct (entry_exception f) as [e|].
    + cbn [filter]. destruct (qualifiesb f); cbn [map];
        [reflexivity | now rewrite app_nil_r].
    + rewrite IH. cbn [filter].
      destruct (qualifiesb f); cbn [map]; [now rewrite <- app_assoc | reflexivity].
Qed.

(** A scan that nothing stops gets to every entry. *)
Lemma reached_all (fields : list json) :
  first_exception fields = None -> reached fields = fields.
Proof.
  induction fields as [|f fields IH]; cbn; [reflexivity|].
  destruct (entry_exception f) as [e|]; [discriminate|].
  intros H. now rewrite IH.
Qed.

(** The entries the scan gets to are the first of the list. *)
Lemma reached_prefix (fields : list json) :
  exists behind, fields = (reached fields ++ behind)%list.
Proof.
  induction fields as [|f fields [behind IH]]; cbn; [now exists []|].
  destruct (entry_exception f) as [e|].
  - now exists fields.
  - exists behind. cbn. now rewrite <- IH.
Qed.

Lemma first_exception_documented (fields : list json) :
  Forall documented_entry fields -> first_exception fields = None.
Proof.
  induction 1 as [|f fields [_ Hf] _ IH]; cbn; [reflexivity|].
  now rewrite Hf.
Qed.

(** On entries of the documented shape the loop always comes to its end. *)
Lemma for_each_field_documented (fields : list json) (field_list : list json) :
  Forall documented_entry fields ->
  for_each_field fields field_list
  = ((field_list ++ map name_of (filter qualifiesb fields))%list, Ok tt).
Proof.
  intros Hall. apply first_exception_documented in Hall.
  now rewrite for_each_field_scan, Hall, (reached_all _ Hall).
Qed.

(** C1.  A turn of the loop records the name of its entry exactly when the
    entry qualifies: its set of referenced object types is not empty and
    holds the string [Account] itself.  The other members of the set do
    not matter, so a polymorphic pointer qualifies as well.  Over a list,
    the loop records the names of the qualifying entries among those it
    gets to, in their order, and no other name.  It gets to every entry
    when nothing stops it, but not always: an entry that is no object
    stops it with [TypeError] at line 137 or 151, and the qualifying
    entries behind it are never recorded.  The response
    [{"fields": [null, {"name": "AccountId", "referenceTo": ["Account"]}]}]
    is such a one: [json.loads] decodes it, its second entry qualifies,
    nothing is recorded and the lookup raises. *)
Theorem qualifying_field_recorded_iff_reached (field : json) (field_list : list json) :
  (qualifies field <->
   fst (scan_field field field_list) = (field_list ++ [name_of field])%list) /\
  (~ qualifies field <-> fst (scan_field field field_list) = field_list) /\
  (forall members before after,
     field = JDict members ->
     dict_lookup "referenceTo" members
     = Some (JList (before ++ JStr anchorType :: after)) ->
     qualifies field) /\
  (forall fields,
     fst (for_each_field fields field_list)
     = (field_list ++ map name_of (filter qualifiesb (reached fields)))%list /\
     (forall f, In f (filter qualifiesb (reached fields))
                <-> In f (reached fields) /\ qualifies f) /\
     (first_exception fields = None -> reached fields = fields)) /\
  (forall limit, 4 <= limit ->
     JsonDecoder.loads limit Scripted.null_entry_describe
     = Ok (JDict [("fields", JList [JNull; Scripted.account_lookup])])) /\
  located_fields (JDict [("fields", JList [JNull; Scripted.account_lookup])])
  = [JNull; Scripted.account_lookup] /\
  qualifies Scripted.account_lookup /\
  reached [JNull; Scripted.account_lookup] = [JNull] /\
  for_each_field [JNull; Scripted.account_lookup] [] = ([], Raise TypeError) /\
  lookup_fields (JDict [("fields", JList [JNull; Scripted.account_lookup])])
  = Raise TypeError.
Proof.
  rewrite scan_field_recorded, <- qualifiesb_spec.
  assert (Hne : (field_list ++ [name_of field])%list <> field_list).
  { intros H. apply (f_equal (@List.length json)) in H.
    rewrite length_app in H. simpl in H. lia. }
  split; [split | split; [split | split; [|split; [|split; [|split; [|split; [|split; [|split]]]]]]]].
  - intros ->. reflexivity.
  - destruct (qualifiesb field); [reflexivity | intros H; now elim Hne].
  - destruct (qualifiesb field); [intros H; now elim H | reflexivity].
  - destruct (qualifiesb field); [intros H; now elim Hne | discriminate].
  - intros members before after -> Href. apply qualifiesb_spec.
    unfold qualifiesb, referenced_types. rewrite Href.
    destruct (before ++ JStr anchorType :: after)%list eqn:E.
    + now destruct before.
    + rewrite <- E, existsb_eq_str. apply in_elt.
  - intros fields. split; [now rewrite for_each_field_scan | split].
    + intros f. rewrite filter_In, qualifiesb_spec. reflexivity.
    + apply reached_all.
  - intros limit Hlimit.
    do 4 (destruct limit as [|limit]; [lia|]). vm_compute. reflexivity.
  - reflexivity.
  - apply qualifiesb_spec. reflexivity.
  - reflexivity.
  - reflexivity.
  - reflexivity.
Qed.

(** C10.  An entry whose [referenceTo] is there but is not a list (a single
    string, say, whatever it spells) does not qualify: the turn of the loop
    leaves [field_list] alone and raises nothing, and the whole loop runs
    as if the entry were not in the list. *)
Theorem non_list_reference_never_recorded
  (members : list (string * json)) (v : json) (field_list : list json) :
  dict_lookup "referenceTo" members = Some v ->
  isinstance_list v = false ->
  ~ qualifies (JDict members) /\
  scan_field (JDict members) field_list = (field_list, Ok tt) /\
  (forall before after,
     for_each_field (before ++ JDict members :: after) field_list
     = for_each_field (before ++ after) field_list).
Proof.
  intros Hv Hl.
  assert (Hq : qualifiesb (JDict members) = false).
  { unfold qualifiesb, referenced_types. rewrite Hv. now destruct v. }
  assert (Hs : forall fl, scan_field (JDict members) fl = (fl, Ok tt)).
  { intros fl. rewrite scan_field_turn. unfold entry_exception. now rewrite Hq. }
  split; [|split].
  - rewrite <- qualifiesb_spec, Hq. discriminate.
  - apply Hs.
  - intros before after. rewrite !for_each_field_app.
    destruct (for_each_field before field_list) as [fl' [[]|e]]; [|reflexivity].
    simpl. unfold scan_bind at 1. now rewrite Hs.
Qed.

(** A field that points at [Account] through a plain string, as in
    ["referenceTo": "Account"], is passed over. *)
Lemma non_list_reference_witness :
  scan_field (JDict [("name", JStr "ParentId"); ("referenceTo", JStr "Account")]) []
  = ([], Ok tt).
Proof.
  apply (non_list_reference_never_recorded
           [("name", JStr "ParentId"); ("referenceTo", JStr "Account")]
           (JStr "Account") []); reflexivity.
Defined.

(* ====================================================================== *)
(** ** Properties of the query *)
(* ====================================================================== *)

Lemma existsb_eqb_In (n : string) (l : list string) :
  existsb (String.eqb n) l = true <-> In n l.
Proof.
  rewrite existsb_exists. split.
  - intros (x & Hin & Hx). apply String.eqb_eq in Hx. now subst.
  - intros Hin. exists n. split; [assumption | apply String.eqb_refl].
Qed.

Lemma existsb_eqb_same (n : string) (l1 l2 : list string) :
  (forall x, In x l1 <-> In x l2) ->
  existsb (String.eqb n) l1 = existsb (String.eqb n) l2.
Proof.
  intros H. apply eq_true_iff_eq. rewrite !existsb_eqb_In. apply H.
Qed.

(** The dict that [dict.fromkeys] fills holds, after the keys already in
    it, the new names by first occurrence. *)
Lemma fold_fromkeys_insert (names d seen : list string) :
  (forall x, In x seen <-> In x d) ->
  fold_left fromkeys_insert names d = (d ++ keep_first seen names)%list.
Proof.
  revert d seen. induction names as [|n names IH]; intros d seen Hsame; simpl.
  - now rewrite app_nil_r.
  - unfold fromkeys_insert at 2.
    rewrite (existsb_eqb_same n seen d Hsame).
    destruct (existsb (String.eqb n) d) eqn:E.
    + now apply IH.
    + rewrite (IH (d ++ [n])%list (n :: seen)).
      * now rewrite <- app_assoc.
      * intros x. rewrite in_app_iff. simpl. rewrite Hsame. tauto.
Qed.

Lemma keep_first_fresh (seen names : list string) (x : string) :
  In x (keep_first seen names) -> In x names /\ ~ In x seen.
Proof.
  revert seen. induction names as [|n names IH]; intros seen; simpl; [tauto|].
  destruct (existsb (String.eqb n) seen) eqn:E.
  - intros H. apply IH in H. tauto.
  - intros [<- | H].
    + split; [now left|]. rewrite <- existsb_eqb_In, E. discriminate.
    + apply IH in H. simpl in H. tauto.
Qed.

Lemma keep_first_NoDup (seen names : list string) : NoDup (keep_first seen names).
Proof.
  revert seen. induction names as [|n names IH]; intros seen; simpl.
  - constructor.
  - destruct (existsb (String.eqb n) seen); [apply IH|].
    constructor; [|apply IH].
    intros H. apply keep_first_fresh in H. simpl in H. tauto.
Qed.

Lemma keep_first_keeps (seen names : list string) (x : string) :
  In x names -> ~ In x seen -> In x (keep_first seen names).
Proof.
  revert seen. induction names as [|n names IH]; intros seen; simpl; [tauto|].
  intros Hin Hseen. destruct (existsb (String.eqb n) seen) eqn:E.
  - apply existsb_eqb_In in E. destruct Hin as [<- | Hin]; [contradiction|].
    now apply IH.
  - destruct (string_dec n x) as [-> | Hne]; [now left|]. right.
    destruct Hin as [Heq | Hin]; [contradiction|].
    apply IH; [assumption|]. simpl. tauto.
Qed.

Lemma select_fields_unfold (names : list string) :
  select_fields names = "Id" :: keep_first ["Id"] names.
Proof.
  unfold select_fields, fromkeys. simpl. unfold fromkeys_insert at 2. simpl.
  now rewrite (fold_fromkeys_insert names ["Id"] ["Id"]).
Qed.

(** Every recorded name is among the selected fields. *)
Lemma select_fields_keeps (names : list string) (n : string) :
  In n names -> In n (select_fields names).
Proof.
  intros Hin. rewrite select_fields_unfold.
  destruct (string_dec "Id" n) as [<- | Hne]; [now left|].
  right. apply keep_first_keeps; [assumption|]. simpl. tauto.
Qed.

(** C2.  The selected fields start with [Id], hold it once, hold no name
    twice, and go on with the recorded names in the order of their first
    occurrence, a name that came before (or [Id] itself) being dropped. *)
Theorem selected_fields_invariant (names : list string) :
  exists rest,
    select_fields names = "Id" :: rest /\
    rest = keep_first ["Id"] names /\
    count_occ string_dec (select_fields names) "Id" = 1 /\
    NoDup (select_fields names) /\
    (forall n, In n (select_fields names) <-> n = "Id" \/ In n names).
Proof.
  exists (keep_first ["Id"] names).
  assert (Hfresh : ~ In "Id" (keep_first ["Id"] names)).
  { intros H. apply keep_first_fresh in H. simpl in H. tauto. }
  rewrite select_fields_unfold. repeat split.
  - simpl. destruct (string_dec "Id" "Id") as [_ | Hne]; [|now elim Hne].
    f_equal. now apply count_occ_not_In.
  - constructor; [assumption | apply keep_first_NoDup].
  - intros [<- | H]; [now left|]. apply keep_first_fresh in H. tauto.
  - intros [-> | H]; [now left|].
    rewrite <- select_fields_unfold. now apply select_fields_keeps.
Qed.

Lemma append_assoc (a b c : string) : (a ++ b) ++ c = a ++ (b ++ c).
Proof.
  induction a as [|x a IH]; simpl; [reflexivity | now rewrite IH].
Qed.

(** [join_strs] is the concatenation with separators. *)
Lemma concat_head_app (sep a b : string) (rest : list string) :
  String.concat sep ((a ++ b) :: rest) = a ++ String.concat sep (b :: rest).
Proof.
  destruct rest; simpl; [reflexivity|]. now rewrite append_assoc.
Qed.

Lemma join_strs_concat (sep : string) (items : list string) :
  join_strs sep items = String.concat sep items.
Proof.
  destruct items as [|x rest]; [reflexivity|]. simpl join_strs.
  revert x. induction rest as [|y rest IH]; intros x; [reflexivity|].
  simpl fold_left. rewrite IH, concat_head_app, concat_head_app. reflexivity.
Qed.

Lemma all_strs_map (names : list string) : all_strs (map JStr names) = Some names.
Proof.
  induction names as [|n names IH]; simpl; [reflexivity | now rewrite IH].
Qed.

(** C3.  The query is [SELECT], the fields joined by a comma and a blank in
    their order, [FROM] and the object type; and this is the query the
    script builds from the names it recorded. *)
Theorem query_is_select_fields_from_object (obj : string) (field_list : list string) :
  query_of obj field_list
  = "SELECT " ++ String.concat ", " field_list ++ " FROM " ++ obj /\
  (forall names,
     build_query obj (map JStr names) = Ok (query_of obj (select_fields names))).
Proof.
  split.
  - unfold query_of. now rewrite join_strs_concat.
  - intros names. unfold build_query. now rewrite all_strs_map.
Qed.

(** Scenario 1 of the specification. *)
Example query_contact :
  build_query "Contact" [JStr "AccountId"] = Ok "SELECT Id, AccountId FROM Contact".
Proof. reflexivity. Qed.

(** C8.  A qualifying entry without a [name] is recorded under the empty
    string: [field.get('name', '')] falls back on its default and raises
    nothing, the empty name goes into [field_list] like any other, and it
    stays among the selected fields of the query.  The turn itself raises
    nothing when the debug line behind the record can be made and
    printed: the referenced types are strings, and they and the type hold
    no lone surrogate. *)
Theorem missing_name_recorded_as_empty
  (members : list (string * json)) (refs : list json) (field_list : list json) :
  dict_lookup "referenceTo" members = Some (JList refs) ->
  In (JStr anchorType) refs ->
  dict_lookup "name" members = None ->
  get (JDict members) "name" (JStr "") = Ok (JStr "") /\
  fst (scan_field (JDict members) field_list) = (field_list ++ [JStr ""])%list /\
  (forall types,
     all_strs refs = Some types ->
     existsb has_surrogate types = false ->
     printable (type_of (JDict members)) = true ->
     scan_field (JDict members) field_list = ((field_list ++ [JStr ""])%list, Ok tt)) /\
  (forall names, In "" names -> In "" (select_fields names)).
Proof.
  intros Href Hin Hname.
  assert (Hq : qualifiesb (JDict members) = true).
  { unfold qualifiesb, referenced_types. rewrite Href.
    destruct refs; [contradiction | now apply existsb_eq_str]. }
  assert (Hn : name_of (JDict members) = JStr "").
  { simpl. now rewrite Hname. }
  split; [|split; [|split]].
  - simpl. now rewrite Hname.
  - now rewrite scan_field_recorded, Hq, Hn.
  - intros types Hstrs Hsur Htype. rewrite scan_field_turn, Hq, Hn.
    unfold entry_exception. rewrite Hq. unfold referenced_types at 1.
    now rewrite Href, Hstrs, Hn, Htype, Hsur.
  - intros names Hnames. now apply select_fields_keeps.
Qed.

(** A lookup on [Account] that carries no name. *)
Lemma missing_name_witness :
  scan_field (JDict [("referenceTo", JList [JStr "Account"])]) [JStr "AccountId"]
  = ([JStr "AccountId"; JStr ""], Ok tt).
Proof.
  refine (proj1 (proj2 (proj2
            (missing_name_recorded_as_empty
               [("referenceTo", JList [JStr "Account"])] [JStr "Account"]
               [JStr "AccountId"] eq_refl (or_introl eq_refl) eq_refl)))
            ["Account"] eq_refl eq_refl eq_refl).
Defined.

(* ====================================================================== *)
(** ** Properties of the decoder *)
(* ====================================================================== *)

Module DecoderFacts.
Import JsonDecoder Shape.

Lemma is_ws_not_number (c : ascii) : is_ws c = true -> number_char c = false.
Proof.
  unfold is_ws. rewrite !orb_true_iff, !Ascii.eqb_eq.
  intros [[[-> | ->] | ->] | ->]; reflexivity.
Qed.

Lemma skip_ws_app (s t : string) (c : ascii) (r : string) :
  skip_ws s = String c r -> skip_ws (s ++ t) = String c (r ++ t).
Proof.
  induction s as [|a s IH]; simpl; [discriminate|].
  destruct (is_ws a); [exact IH|].
  intros H. inversion H. reflexivity.
Qed.

Lemma skip_ws_app_blank (s t : string) :
  blank s -> skip_ws (s ++ t) = skip_ws t.
Proof.
  unfold blank. induction s as [|a s IH]; simpl; [reflexivity|].
  destruct (is_ws a); [exact IH | discriminate].
Qed.

(** What follows a value inside an array or an object cannot carry a number
    on: it is a blank, a comma or a closing bracket. *)
Lemma skip_ws_head (s : string) (c : ascii) (r t : string) :
  skip_ws s = String c r -> number_char c = false -> terminated (s ++ t).
Proof.
  destruct s as [|a s]; simpl; [discriminate|].
  destruct (is_ws a) eqn:E.
  - intros _ _. now apply is_ws_not_number.
  - intros H. inversion H. subst. tauto.
Qed.

Lemma strip_prefix_app (p s r t : string) :
  strip_prefix p s = Some r -> strip_prefix p (s ++ t) = Some (r ++ t).
Proof.
  revert s. induction p as [|a p IH]; intros s; simpl.
  - intros H. inversion H. reflexivity.
  - destruct s as [|b s]; [discriminate|]. simpl.
    destruct (Ascii.eqb a b); [apply IH | discriminate].
Qed.

Lemma strip_prefix_eq (p s r : string) :
  strip_prefix p s = Some r -> s = p ++ r.
Proof.
  revert s. induction p as [|a p IH]; intros s; simpl.
  - intros H. now inversion H.
  - destruct s as [|b s]; [discriminate|].
    destruct (Ascii.eqb a b) eqn:E; [|discriminate].
    apply Ascii.eqb_eq in E. subst b. intros H. f_equal. now apply IH.
Qed.

Lemma scanstring_from_app (mode : str_mode) (pending : option N) (acc s t x r : string) :
  scanstring_from mode pending acc s = Some (x, r) ->
  scanstring_from mode pending acc (s ++ t) = Some (x, r ++ t).
Proof.
  revert mode pending acc.
  induction s as [|c s IH]; intros mode pending acc; simpl; [discriminate|].
  destruct mode as [| | remaining cp].
  - destruct (Ascii.eqb c dquote).
    + intros H. inversion H. reflexivity.
    + destruct (Ascii.eqb c backslash); [apply IH|].
      destruct (N_of_ascii c <? 32)%N; [discriminate | apply IH].
  - destruct (Ascii.eqb c "u"%char); [apply IH|].
    destruct (simple_escape c); [apply IH | discriminate].
  - destruct (hex_value c); [|discriminate].
    destruct remaining as [|[|remaining]]; [discriminate | | apply IH].
    destruct (end_escape pending acc (cp * 16 + n)). apply IH.
Qed.

Lemma scanstring_app (s t x r : string) :
  scanstring s = Some (x, r) -> scanstring (s ++ t) = Some (x, r ++ t).
Proof. apply scanstring_from_app. Qed.

(** *** Numbers *)

Lemma terminated_no_digit (c : ascii) (s : string) :
  terminated (String c s) -> is_digit c = false.
Proof.
  simpl. unfold number_char. rewrite !orb_false_iff. tauto.
Qed.

Lemma span_digits_app (s t d r : string) :
  span_digits s = (d, r) ->
  no_digit_ahead (r ++ t) ->
  span_digits (s ++ t) = (d, r ++ t).
Proof.
  revert d. induction s as [|c s IH]; intros d; simpl.
  - intros H. inversion H. subst. simpl.
    destruct t as [|c t]; simpl; [reflexivity|]. now intros ->.
  - destruct (is_digit c) eqn:E.
    + destruct (span_digits s) as [d' r'] eqn:Es. intros H. inversion H. subst.
      intros Hr. now rewrite (IH d' eq_refl Hr).
    + intros H. inversion H. subst. simpl. now rewrite E.
Qed.

Lemma terminated_no_digit_ahead (s : string) : terminated s -> no_digit_ahead s.
Proof.
  destruct s as [|c s]; [trivial|]. apply terminated_no_digit.
Qed.

Lemma scan_int_digits_app (neg : bool) (s t : string) (sign : bool) (i r : string) :
  scan_int_digits neg s = Some (sign, i, r) ->
  no_digit_ahead (r ++ t) ->
  scan_int_digits neg (s ++ t) = Some (sign, i, r ++ t).
Proof.
  unfold scan_int_digits. destruct s as [|c s]; simpl; [discriminate|].
  destruct (Ascii.eqb c "0"%char).
  - intros H. inversion H. reflexivity.
  - destruct (is_digit c); [|discriminate].
    destruct (span_digits s) as [d r'] eqn:Es. intros H. inversion H. subst.
    intros Hr. now rewrite (span_digits_app _ _ _ _ Es Hr).
Qed.

Lemma scan_int_app (s t : string) (sign : bool) (i r : string) :
  scan_int s = Some (sign, i, r) ->
  no_digit_ahead (r ++ t) ->
  scan_int (s ++ t) = Some (sign, i, r ++ t).
Proof.
  unfold scan_int. destruct s as [|c s]; simpl; [discriminate|].
  destruct (Ascii.eqb c "-"%char).
  - apply scan_int_digits_app.
  - apply (scan_int_digits_app false (String c s)).
Qed.

Lemma scan_frac_app (s t f r : string) :
  scan_frac s = (f, r) ->
  no_fraction_ahead (r ++ t) ->
  scan_frac (s ++ t) = (f, r ++ t).
Proof.
  unfold scan_frac. destruct s as [|c s]; simpl.
  - intros H. inversion H. subst. simpl.
    destruct t as [|c t]; [reflexivity|]. simpl. now intros [_ ->].
  - destruct (Ascii.eqb c "."%char) eqn:E.
    + destruct (span_digits s) as [d r'] eqn:Es.
      destruct d as [|d0 d].
      * intros H. inversion H. subst. simpl. rewrite E. intros [_ Hdot]. discriminate.
      * intros H. inversion H. subst. intros Hr.
        rewrite (span_digits_app _ _ _ _ Es); [reflexivity|].
        destruct (r ++ t); [trivial | apply Hr].
    + intros H. inversion H. subst. reflexivity.
Qed.

Lemma exp_letter_stuck (c : ascii) (s : string) :
  is_exp_letter c = true -> terminated (String c s) -> False.
Proof.
  simpl. unfold number_char, is_exp_letter.
  rewrite !orb_false_iff, orb_true_iff. intros [E | E] [[_ He] HE]; congruence.
Qed.

Lemma scan_exp_digits_app (neg : bool) (s whole t : string) (e : option Z) (r : string) :
  scan_exp_digits neg s whole = (e, r) ->
  (terminated (whole ++ t) -> False) ->
  terminated (r ++ t) ->
  scan_exp_digits neg (s ++ t) (whole ++ t) = (e, r ++ t).
Proof.
  unfold scan_exp_digits. destruct (span_digits s) as [[|a d] r2] eqn:Es.
  - intros H. inversion H. subst. intros Hstuck Ht. now elim Hstuck.
  - intros H. inversion H. subst. intros _ Ht.
    now rewrite (span_digits_app _ _ _ _ Es (terminated_no_digit_ahead _ Ht)).
Qed.

Lemma scan_exp_app (s t : string) (e : option Z) (r : string) :
  scan_exp s = (e, r) ->
  terminated (r ++ t) ->
  scan_exp (s ++ t) = (e, r ++ t).
Proof.
  unfold scan_exp. destruct s as [|c s]; simpl.
  - intros H. inversion H. subst. simpl.
    destruct t as [|c t]; [reflexivity|]. intros Ht.
    destruct (is_exp_letter c) eqn:E; [|reflexivity].
    elim (exp_letter_stuck c t E Ht).
  - destruct (is_exp_letter c) eqn:E.
    + pose proof (exp_letter_stuck c (s ++ t) E) as Hstuck.
      destruct s as [|sg s']; simpl.
      * intros H. inversion H. subst. intros Ht. now elim Hstuck.
      * destruct (Ascii.eqb sg "-"%char); [|destruct (Ascii.eqb sg "+"%char)];
          intros H Ht.
        -- now apply (scan_exp_digits_app true s' (String c (String sg s'))).
        -- now apply (scan_exp_digits_app false s' (String c (String sg s'))).
        -- now apply (scan_exp_digits_app false (String sg s') (String c (String sg s'))).
    + intros H. inversion H. subst. reflexivity.
Qed.

Lemma exp_letter_no_fraction (c : ascii) :
  is_exp_letter c = true -> is_digit c = false /\ Ascii.eqb c "."%char = false.
Proof.
  unfold is_exp_letter. rewrite orb_true_iff, !Ascii.eqb_eq.
  intros [-> | ->]; split; reflexivity.
Qed.

Lemma terminated_no_fraction (s : string) : terminated s -> no_fraction_ahead s.
Proof.
  destruct s as [|c s]; simpl; [trivial|]. unfold number_char.
  rewrite !orb_false_iff. tauto.
Qed.

Lemma scan_exp_ahead (s t : string) (e : option Z) (r : string) :
  scan_exp s = (e, r) -> terminated (r ++ t) -> no_fraction_ahead (s ++ t).
Proof.
  unfold scan_exp. destruct s as [|c s].
  - intros H. inversion H. subst. apply terminated_no_fraction.
  - destruct (is_exp_letter c) eqn:E.
    + intros _ _. simpl. now apply exp_letter_no_fraction.
    + intros H. inversion H. subst. apply terminated_no_fraction.
Qed.

Lemma scan_frac_ahead (s t f r : string) :
  scan_frac s = (f, r) -> no_fraction_ahead (r ++ t) -> no_digit_ahead (s ++ t).
Proof.
  assert (Hweak : forall x, no_fraction_ahead x -> no_digit_ahead x).
  { intros [|c x]; simpl; tauto. }
  unfold scan_frac. destruct s as [|c s].
  - intros H. inversion H. subst. apply Hweak.
  - destruct (Ascii.eqb c "."%char) eqn:E.
    + intros _ _. simpl. apply Ascii.eqb_eq in E. now subst c.
    + intros H. inversion H. subst. apply Hweak.
Qed.

(** A number read from a text is read the same from a longer text, as long
    as no number can go on where this one stopped. *)
Lemma scan_number_app (s t : string) (n : number) (r : string) :
  scan_number s = Ok (n, r) ->
  terminated (r ++ t) ->
  scan_number (s ++ t) = Ok (n, r ++ t).
Proof.
  unfold scan_number.
  destruct (scan_int s) as [[[neg i] r0]|] eqn:Ei; [|discriminate].
  destruct (scan_frac r0) as [f r1] eqn:Ef.
  destruct (scan_exp r1) as [e r2] eqn:Ee.
  intros H Ht.
  assert (r2 = r) as ->.
  { destruct f; [destruct e|]; try (now inversion H).
    destruct (max_str_digits <? N.of_nat (String.length i))%N; now inversion H. }
  pose proof (scan_exp_ahead _ _ _ _ Ee Ht) as Hf.
  pose proof (scan_frac_ahead _ _ _ _ Ef Hf) as Hd.
  rewrite (scan_int_app _ _ _ _ _ Ei Hd), (scan_frac_app _ _ _ _ Ef Hf),
    (scan_exp_app _ _ _ _ Ee Ht).
  destruct f; [destruct e|]; try (now inversion H).
  destruct (max_str_digits <? N.of_nat (String.length i))%N; now inversion H.
Qed.

(** A number that was read is an [int] or a [float] read from digits. *)
Lemma scan_number_ends_number (s : string) (n : number) (r : string) :
  scan_number s = Ok (n, r) -> ends_number (JNum n) = true.
Proof.
  unfold scan_number.
  destruct (scan_int s) as [[[neg i] r0]|]; [|discriminate].
  destruct (scan_frac r0) as [f r1]. destruct (scan_exp r1) as [e r2].
  destruct f; [destruct e|]; try (intros H; now inversion H).
  destruct (max_str_digits <? N.of_nat (String.length i))%N;
    intros H; now inversion H.
Qed.

(** What reading a number raises. *)
Lemma scan_number_raises (s : string) (e : exn) :
  scan_number s = Raise e -> e = JSONDecodeError \/ e = ValueError.
Proof.
  unfold scan_number.
  destruct (scan_int s) as [[[neg i] r0]|]; [|intros H; inversion H; now left].
  destruct (scan_frac r0) as [f r1]. destruct (scan_exp r1) as [x r2].
  destruct f; [destruct x|]; try discriminate.
  destruct (max_str_digits <? N.of_nat (String.length i))%N; [|discriminate].
  intros H. inversion H. now right.
Qed.

Lemma scan_literal_app (word : string) (v : json) (s t : string) (v' : json) (r : string) :
  scan_literal word v s = Some (v', r) ->
  scan_literal word v (s ++ t) = Some (v', r ++ t).
Proof.
  unfold scan_literal. destruct (strip_prefix word s) as [r'|] eqn:E; [|discriminate].
  intros H. inversion H. subst. now rewrite (strip_prefix_app _ _ _ t E).
Qed.

(** The three constants start with a letter that no number starts with, or
    with a minus that no digit follows. *)
Lemma scan_constant_app (s t : string) (v : json) (r : string) :
  scan_constant s = Some (v, r) ->
  scan_number (s ++ t) = Raise JSONDecodeError /\
  scan_constant (s ++ t) = Some (v, r ++ t).
Proof.
  unfold scan_constant.
  destruct (strip_prefix "NaN" s) as [r1|] eqn:E1.
  { intros H. inversion H. subst. rewrite (strip_prefix_app _ _ _ t E1).
    apply strip_prefix_eq in E1. subst s. split; reflexivity. }
  destruct (strip_prefix "Infinity" s) as [r2|] eqn:E2.
  { intros H. inversion H. subst. pose proof (strip_prefix_app _ _ _ t E2) as H2.
    apply strip_prefix_eq in E2. subst s. split; [reflexivity|].
    now rewrite H2. }
  destruct (strip_prefix "-Infinity" s) as [r3|] eqn:E3; [|discriminate].
  intros H. inversion H. subst. pose proof (strip_prefix_app _ _ _ t E3) as H3.
  apply strip_prefix_eq in E3. subst s. split; [reflexivity|].
  now rewrite H3.
Qed.

Lemma found_ok {A : Type} (o : option A) (a : A) : found o = Ok a -> o = Some a.
Proof. destruct o; simpl; [intros H; now inversion H | discriminate]. Qed.

(** *** Values *)

Section Longer.

(** The text put behind. *)
Variable t : string.

Lemma scan_value_app depth items members :
  stable_loop t items -> stable_loop t members ->
  stable_once t (scan_value depth items members).
Proof.
  intros Hitems Hmembers [|c s] v r; simpl; [discriminate|].
  destruct (Ascii.eqb c dquote).
  { destruct (scanstring s) as [[x r']|] eqn:Es; [|discriminate].
    intros H _. inversion H. subst.
    now rewrite (scanstring_app _ t _ _ Es). }
  destruct (Ascii.eqb c "{"%char).
  { destruct depth as [|depth]; [discriminate|].
    destruct (skip_ws s) as [|c1 r1] eqn:Ew; [discriminate|].
    rewrite (skip_ws_app _ t _ _ Ew).
    destruct (Ascii.eqb c1 "}"%char).
    - intros H _. inversion H. reflexivity.
    - intros H _. apply (Hmembers [] (String c1 r1)). exact H. }
  destruct (Ascii.eqb c "["%char).
  { destruct depth as [|depth]; [discriminate|].
    destruct (skip_ws s) as [|c1 r1] eqn:Ew; [discriminate|].
    rewrite (skip_ws_app _ t _ _ Ew).
    destruct (Ascii.eqb c1 "]"%char).
    - intros H _. inversion H. reflexivity.
    - intros H _. apply (Hitems [] (String c1 r1)). exact H. }
  destruct (Ascii.eqb c "n"%char).
  { intros H _. apply found_ok in H. now rewrite (scan_literal_app _ _ _ t _ _ H). }
  destruct (Ascii.eqb c "t"%char).
  { intros H _. apply found_ok in H. now rewrite (scan_literal_app _ _ _ t _ _ H). }
  destruct (Ascii.eqb c "f"%char).
  { intros H _. apply found_ok in H. now rewrite (scan_literal_app _ _ _ t _ _ H). }
  destruct (scan_number (String c s)) as [[n r']|e] eqn:En.
  - intros H Ht. inversion H. subst.
    pose proof (scan_number_ends_number _ _ _ En) as Hn.
    change (String c (s ++ t)) with (String c s ++ t).
    now rewrite (scan_number_app (String c s) t _ _ En (Ht Hn)).
  - destruct e; try discriminate.
    intros H _. apply found_ok in H.
    apply (scan_constant_app _ t) in H. destruct H as [Hn Hc].
    simpl in Hn, Hc. now rewrite Hn, Hc.
Qed.

(** Inside an array or an object a value is followed by blanks and a comma
    or a closing bracket, so a number there is never carried on. *)
Lemma stable_once_inside once s v r c r' :
  stable_once t once ->
  once s = Ok (v, r) ->
  skip_ws r = String c r' -> number_char c = false ->
  once (s ++ t) = Ok (v, r ++ t).
Proof.
  intros Honce Hv Hs Hc. apply Honce; [exact Hv|].
  intros _. now apply (skip_ws_head r c r' t).
Qed.

Lemma scan_item_app once items :
  stable_once t once -> stable_loop t items -> fails_on_empty items ->
  stable_loop t (scan_item once items).
Proof.
  intros Honce Hitems Hempty acc s v r. unfold scan_item.
  destruct (once s) as [[v1 r1]|e] eqn:Ev; [|discriminate].
  destruct (skip_ws r1) as [|c r'] eqn:Ew; [discriminate|].
  destruct (Ascii.eqb c "]"%char) eqn:E1.
  - intros H. inversion H. subst.
    apply Ascii.eqb_eq in E1. subst c.
    rewrite (stable_once_inside _ _ _ _ _ _ Honce Ev Ew eq_refl),
      (skip_ws_app _ t _ _ Ew).
    reflexivity.
  - destruct (Ascii.eqb c ","%char) eqn:E2; [|discriminate].
    intros H. pose proof E2 as E2'. apply Ascii.eqb_eq in E2'. subst c.
    rewrite (stable_once_inside _ _ _ _ _ _ Honce Ev Ew eq_refl),
      (skip_ws_app _ t _ _ Ew).
    simpl.
    destruct (skip_ws r') as [|c2 r2] eqn:Ew2.
    + now elim (Hempty _ _ H).
    + rewrite (skip_ws_app _ t _ _ Ew2).
      now apply (Hitems _ (String c2 r2)).
Qed.

Lemma scan_member_app once members :
  stable_once t once -> (forall x, once "" <> Ok x) ->
  stable_loop t members -> fails_on_empty members ->
  stable_loop t (scan_member once members).
Proof.
  intros Honce Hnone Hmembers Hempty acc [|q s] v r; simpl; [discriminate|].
  destruct (Ascii.eqb q dquote); [|discriminate].
  destruct (scanstring s) as [[key r1]|] eqn:Es; [|discriminate].
  rewrite (scanstring_app _ t _ _ Es).
  destruct (skip_ws r1) as [|c2 r2] eqn:Ew1; [discriminate|].
  rewrite (skip_ws_app _ t _ _ Ew1).
  destruct (Ascii.eqb c2 ":"%char); [|discriminate].
  destruct (skip_ws r2) as [|c3 r3'] eqn:Ew2.
  { destruct (once "") as [x|e] eqn:E0; [now elim (Hnone x) | discriminate]. }
  rewrite (skip_ws_app _ t _ _ Ew2).
  destruct (once (String c3 r3')) as [[v1 r3]|e] eqn:Ev; [|discriminate].
  destruct (skip_ws r3) as [|c4 r4] eqn:Ew3; [discriminate|].
  change (String c3 (r3' ++ t)) with (String c3 r3' ++ t).
  destruct (Ascii.eqb c4 "}"%char) eqn:E1.
  - intros H. inversion H. subst.
    apply Ascii.eqb_eq in E1. subst c4.
    rewrite (stable_once_inside _ _ _ _ _ _ Honce Ev Ew3 eq_refl),
      (skip_ws_app _ t _ _ Ew3).
    reflexivity.
  - destruct (Ascii.eqb c4 ","%char) eqn:E2; [|discriminate].
    intros H. pose proof E2 as E2'. apply Ascii.eqb_eq in E2'. subst c4.
    rewrite (stable_once_inside _ _ _ _ _ _ Honce Ev Ew3 eq_refl),
      (skip_ws_app _ t _ _ Ew3).
    simpl.
    destruct (skip_ws r4) as [|c5 r5] eqn:Ew4.
    + now elim (Hempty _ _ H).
    + rewrite (skip_ws_app _ t _ _ Ew4).
      now apply (Hmembers _ (String c5 r5)).
Qed.

Lemma scan_once_empty (fuel depth : nat) (x : json * string) :
  scan_once fuel depth "" <> Ok x.
Proof. now destruct fuel. Qed.

Lemma scan_items_empty (fuel depth : nat) : fails_on_empty (scan_items fuel depth).
Proof.
  intros acc x. destruct fuel; [discriminate|]. simpl. unfold scan_item.
  destruct (scan_once fuel depth "") as [y|e] eqn:E; [|discriminate].
  now elim (scan_once_empty _ _ _ E).
Qed.

Lemma scan_members_empty (fuel depth : nat) : fails_on_empty (scan_members fuel depth).
Proof. intros acc x. now destruct fuel. Qed.

(** A value read from a text is read the same from a longer text.  Only a
    number at the very end needs care: it must not be carried on. *)
Lemma scan_app (fuel depth : nat) :
  stable_once t (scan_once fuel depth) /\
  stable_loop t (scan_items fuel depth) /\
  stable_loop t (scan_members fuel depth).
Proof.
  revert depth. induction fuel as [|fuel IH]; intros depth.
  { repeat split; intros ? **; discriminate. }
  destruct (IH depth) as (IHonce & IHitems & IHmembers).
  destruct (IH (pred depth)) as (_ & IHitems' & IHmembers').
  split; [|split]; simpl.
  - now apply scan_value_app.
  - apply scan_item_app; [assumption | assumption | apply scan_items_empty].
  - apply scan_member_app;
      [assumption | apply scan_once_empty | assumption | apply scan_members_empty].
Qed.

End Longer.

(** *** What is left to read gets shorter *)

Lemma length_append (a b : string) :
  String.length (a ++ b) = String.length a + String.length b.
Proof.
  induction a as [|x a IH]; simpl; [reflexivity | now rewrite IH].
Qed.

Lemma skip_ws_length (s : string) : String.length (skip_ws s) <= String.length s.
Proof.
  induction s as [|c s IH]; simpl; [lia|].
  destruct (is_ws c); simpl; lia.
Qed.

Lemma strip_prefix_length (p s r : string) :
  strip_prefix p s = Some r -> String.length r <= String.length s.
Proof.
  intros H. apply strip_prefix_eq in H. subst s. rewrite length_append. lia.
Qed.

Lemma scanstring_from_length mode pending acc (s x r : string) :
  scanstring_from mode pending acc s = Some (x, r) ->
  String.length r < String.length s.
Proof.
  revert mode pending acc.
  induction s as [|c s IH]; intros mode pending acc; simpl; [discriminate|].
  assert (Hstep : forall mode' pending' acc',
            scanstring_from mode' pending' acc' s = Some (x, r) ->
            String.length r < S (String.length s)).
  { intros mode' pending' acc' H. apply IH in H. lia. }
  destruct mode as [| | remaining cp].
  - destruct (Ascii.eqb c dquote).
    + intros H. inversion H. lia.
    + destruct (Ascii.eqb c backslash); [apply Hstep|].
      destruct (N_of_ascii c <? 32)%N; [discriminate | apply Hstep].
  - destruct (Ascii.eqb c "u"%char); [apply Hstep|].
    destruct (simple_escape c); [apply Hstep | discriminate].
  - destruct (hex_value c); [|discriminate].
    destruct remaining as [|[|remaining]]; [discriminate | | apply Hstep].
    destruct (end_escape pending acc (cp * 16 + n)). apply Hstep.
Qed.

Lemma span_digits_length (s d r : string) :
  span_digits s = (d, r) -> String.length r <= String.length s.
Proof.
  revert d. induction s as [|c s IH]; intros d; simpl.
  - intros H. inversion H. simpl. lia.
  - destruct (is_digit c).
    + destruct (span_digits s) as [d' r'] eqn:Es. intros H. inversion H. subst.
      specialize (IH d' eq_refl). lia.
    + intros H. inversion H. simpl. lia.
Qed.

Lemma scan_int_digits_length neg (s : string) sign (i r : string) :
  scan_int_digits neg s = Some (sign, i, r) -> String.length r < String.length s.
Proof.
  unfold scan_int_digits. destruct s as [|c s]; [discriminate|]. simpl.
  destruct (Ascii.eqb c "0"%char).
  - intros H. inversion H. lia.
  - destruct (is_digit c); [|discriminate].
    destruct (span_digits s) as [d r'] eqn:Es. intros H. inversion H. subst.
    apply span_digits_length in Es. lia.
Qed.

Lemma scan_number_length (s : string) (n : number) (r : string) :
  scan_number s = Ok (n, r) -> String.length r < String.length s.
Proof.
  unfold scan_number.
  destruct (scan_int s) as [[[neg i] r0]|] eqn:Ei; [|discriminate].
  destruct (scan_frac r0) as [f r1] eqn:Ef.
  destruct (scan_exp r1) as [e r2] eqn:Ee.
  intros H.
  assert (r2 = r) as ->.
  { destruct f; [destruct e|]; try (now inversion H).
    destruct (max_str_digits <? N.of_nat (String.length i))%N; now inversion H. }
  assert (Hi : String.length r0 < String.length s).
  { unfold scan_int in Ei. destruct s as [|c s]; [discriminate|].
    destruct (Ascii.eqb c "-"%char).
    - apply scan_int_digits_length in Ei. simpl. lia.
    - now apply scan_int_digits_length in Ei. }
  assert (Hf : String.length r1 <= String.length r0).
  { unfold scan_frac in Ef. destruct r0 as [|c r0]; [inversion Ef; simpl; lia|].
    destruct (Ascii.eqb c "."%char); [|inversion Ef; simpl; lia].
    destruct (span_digits r0) as [[|a d] r'] eqn:Es; inversion Ef; subst;
      [simpl; lia|]. apply span_digits_length in Es. simpl. lia. }
  assert (He : String.length r <= String.length r1).
  { assert (Hd : forall sg x whole,
              String.length x <= String.length whole ->
              scan_exp_digits sg x whole = (e, r) ->
              String.length r <= String.length whole).
    { intros sg x whole Hx. unfold scan_exp_digits.
      destruct (span_digits x) as [[|a d] r'] eqn:Es; intros H'; inversion H'; subst;
        [lia|]. apply span_digits_length in Es. lia. }
    unfold scan_exp in Ee. destruct r1 as [|c r1]; [inversion Ee; simpl; lia|].
    destruct (is_exp_letter c); [|inversion Ee; simpl; lia].
    destruct r1 as [|sg r1]; [inversion Ee; simpl; lia|].
    destruct (Ascii.eqb sg "-"%char); [|destruct (Ascii.eqb sg "+"%char)];
      apply Hd in Ee; simpl in *; lia. }
  lia.
Qed.

Lemma scan_literal_length word v (s : string) v' (r : string) :
  scan_literal word v s = Some (v', r) -> String.length r <= String.length s.
Proof.
  unfold scan_literal. destruct (strip_prefix word s) as [r'|] eqn:E; [|discriminate].
  intros H. inversion H. subst. now apply strip_prefix_length in E.
Qed.

Lemma scan_constant_length (s : string) v (r : string) :
  scan_constant s = Some (v, r) -> String.length r < String.length s.
Proof.
  unfold scan_constant.
  destruct (strip_prefix "NaN" s) as [r1|] eqn:E1.
  { intros H. inversion H. subst. apply strip_prefix_eq in E1. subst s. simpl. lia. }
  destruct (strip_prefix "Infinity" s) as [r2|] eqn:E2.
  { intros H. inversion H. subst. apply strip_prefix_eq in E2. subst s. simpl. lia. }
  destruct (strip_prefix "-Infinity" s) as [r3|] eqn:E3; [|discriminate].
  intros H. inversion H. subst. apply strip_prefix_eq in E3. subst s. simpl. lia.
Qed.

Lemma scan_value_shrinks depth items members :
  shrinks_loop items -> shrinks_loop members ->
  shrinks_once (scan_value depth items members).
Proof.
  intros Hitems Hmembers [|c s] v r; simpl; [discriminate|].
  destruct (Ascii.eqb c dquote).
  { destruct (scanstring s) as [[x r']|] eqn:Es; [|discriminate].
    intros H. inversion H. subst. apply scanstring_from_length in Es. lia. }
  destruct (Ascii.eqb c "{"%char).
  { destruct depth as [|depth]; [discriminate|].
    pose proof (skip_ws_length s) as Hs.
    destruct (skip_ws s) as [|c1 r1]; [discriminate|].
    destruct (Ascii.eqb c1 "}"%char).
    - intros H. inversion H. subst. simpl in Hs. lia.
    - intros H. apply Hmembers in H. lia. }
  destruct (Ascii.eqb c "["%char).
  { destruct depth as [|depth]; [discriminate|].
    pose proof (skip_ws_length s) as Hs.
    destruct (skip_ws s) as [|c1 r1]; [discriminate|].
    destruct (Ascii.eqb c1 "]"%char).
    - intros H. inversion H. subst. simpl in Hs. lia.
    - intros H. apply Hitems in H. lia. }
  destruct (Ascii.eqb c "n"%char);
    [intros H; apply found_ok, scan_literal_length in H; lia|].
  destruct (Ascii.eqb c "t"%char);
    [intros H; apply found_ok, scan_literal_length in H; lia|].
  destruct (Ascii.eqb c "f"%char);
    [intros H; apply found_ok, scan_literal_length in H; lia|].
  destruct (scan_number (String c s)) as [[n r']|e] eqn:En.
  - intros H. inversion H. subst. now apply scan_number_length in En.
  - destruct e; try discriminate.
    intros H. now apply found_ok, scan_constant_length in H.
Qed.

Lemma scan_item_shrinks once items :
  shrinks_once once -> shrinks_loop items -> shrinks_loop (scan_item once items).
Proof.
  intros Honce Hitems acc s v r. unfold scan_item.
  destruct (once s) as [[v1 r1]|e] eqn:Ev; [|discriminate].
  apply Honce in Ev. pose proof (skip_ws_length r1) as Hs.
  destruct (skip_ws r1) as [|c r'] eqn:Ew; [discriminate|]. simpl in Hs.
  destruct (Ascii.eqb c "]"%char).
  - intros H. inversion H. subst. lia.
  - destruct (Ascii.eqb c ","%char); [|discriminate].
    intros H. apply Hitems in H. pose proof (skip_ws_length r'). lia.
Qed.

Lemma scan_member_shrinks once members :
  shrinks_once once -> shrinks_loop members -> shrinks_loop (scan_member once members).
Proof.
  intros Honce Hmembers acc [|q s] v r; simpl; [discriminate|].
  destruct (Ascii.eqb q dquote); [|discriminate].
  destruct (scanstring s) as [[key r1]|] eqn:Es; [|discriminate].
  apply scanstring_from_length in Es. pose proof (skip_ws_length r1) as H1.
  destruct (skip_ws r1) as [|c2 r2]; [discriminate|]. simpl in H1.
  destruct (Ascii.eqb c2 ":"%char); [|discriminate].
  pose proof (skip_ws_length r2) as H2.
  destruct (once (skip_ws r2)) as [[v1 r3]|e] eqn:Ev; [|discriminate].
  apply Honce in Ev. pose proof (skip_ws_length r3) as H3.
  destruct (skip_ws r3) as [|c4 r4]; [discriminate|]. simpl in H3.
  destruct (Ascii.eqb c4 "}"%char).
  - intros H. inversion H. subst. lia.
  - destruct (Ascii.eqb c4 ","%char); [|discriminate].
    intros H. apply Hmembers in H. pose proof (skip_ws_length r4). lia.
Qed.

Lemma scan_shrinks (fuel depth : nat) :
  shrinks_once (scan_once fuel depth) /\
  shrinks_loop (scan_items fuel depth) /\
  shrinks_loop (scan_members fuel depth).
Proof.
  revert depth. induction fuel as [|fuel IH]; intros depth.
  { repeat split; intros ? **; discriminate. }
  destruct (IH depth) as (IHonce & IHitems & IHmembers).
  destruct (IH (pred depth)) as (_ & IHitems' & IHmembers').
  split; [|split]; simpl.
  - now apply scan_value_shrinks.
  - now apply scan_item_shrinks.
  - now apply scan_member_shrinks.
Qed.

(** *** Fuel *)

(** The fuel stands for nothing in the interpreter, and the decoder does
    not depend on it: past a bound that grows with the text, every amount
    gives the same, whether a value or an exception. *)

Lemma scan_value_agrees len depth items items' members members' :
  agrees_loop len items items' -> agrees_loop len members members' ->
  agrees_once (S len) (scan_value depth items members)
    (scan_value depth items' members').
Proof.
  intros Hitems Hmembers [|c s] Hlen; simpl; [reflexivity|].
  simpl in Hlen. pose proof (skip_ws_length s) as Hs.
  destruct (Ascii.eqb c dquote); [reflexivity|].
  destruct (Ascii.eqb c "{"%char).
  { destruct depth as [|depth]; [reflexivity|].
    destruct (skip_ws s) as [|c1 r1]; [reflexivity|].
    destruct (Ascii.eqb c1 "}"%char); [reflexivity | apply Hmembers; lia]. }
  destruct (Ascii.eqb c "["%char).
  { destruct depth as [|depth]; [reflexivity|].
    destruct (skip_ws s) as [|c1 r1]; [reflexivity|].
    destruct (Ascii.eqb c1 "]"%char); [reflexivity | apply Hitems; lia]. }
  reflexivity.
Qed.

Lemma scan_item_agrees len once once' items items' :
  shrinks_once once ->
  agrees_once (S len) once once' -> agrees_loop len items items' ->
  agrees_loop (S len) (scan_item once items) (scan_item once' items').
Proof.
  intros Hshrink Honce Hitems acc s Hlen. unfold scan_item.
  rewrite <- (Honce _ Hlen).
  destruct (once s) as [[v r]|e] eqn:Ev; [|reflexivity].
  apply Hshrink in Ev. pose proof (skip_ws_length r) as Hr.
  destruct (skip_ws r) as [|c r']; [reflexivity|]. simpl in Hr.
  destruct (Ascii.eqb c "]"%char); [reflexivity|].
  destruct (Ascii.eqb c ","%char); [|reflexivity].
  apply Hitems. pose proof (skip_ws_length r'). lia.
Qed.

Lemma scan_member_agrees len once once' members members' :
  shrinks_once once ->
  agrees_once len once once' -> agrees_loop len members members' ->
  agrees_loop (S len) (scan_member once members) (scan_member once' members').
Proof.
  intros Hshrink Honce Hmembers acc [|q s] Hlen; simpl; [reflexivity|].
  simpl in Hlen.
  destruct (Ascii.eqb q dquote); [|reflexivity].
  destruct (scanstring s) as [[key r1]|] eqn:Es; [|reflexivity].
  apply scanstring_from_length in Es. pose proof (skip_ws_length r1) as H1.
  destruct (skip_ws r1) as [|c2 r2]; [reflexivity|]. simpl in H1.
  destruct (Ascii.eqb c2 ":"%char); [|reflexivity].
  pose proof (skip_ws_length r2) as H2.
  assert (Hl2 : String.length (skip_ws r2) <= len) by lia.
  rewrite <- (Honce _ Hl2).
  destruct (once (skip_ws r2)) as [[v r3]|e] eqn:Ev; [|reflexivity].
  apply Hshrink in Ev.
  pose proof (skip_ws_length r3) as H3.
  destruct (skip_ws r3) as [|c4 r4]; [reflexivity|]. simpl in H3.
  destruct (Ascii.eqb c4 "}"%char); [reflexivity|].
  destruct (Ascii.eqb c4 ","%char); [|reflexivity].
  apply Hmembers. pose proof (skip_ws_length r4). lia.
Qed.

(** On a text of [len] characters, [2 * len + 1] is fuel enough for a
    value and one more for the loops: any two amounts from there on do the
    same. *)
Lemma scan_fuel_stable (len : nat) :
  (forall fuel fuel' depth,
     2 * len + 1 <= fuel -> 2 * len + 1 <= fuel' ->
     agrees_once len (scan_once fuel depth) (scan_once fuel' depth)) /\
  (forall fuel fuel' depth,
     2 * len + 2 <= fuel -> 2 * len + 2 <= fuel' ->
     agrees_loop len (scan_items fuel depth) (scan_items fuel' depth)) /\
  (forall fuel fuel' depth,
     2 * len + 2 <= fuel -> 2 * len + 2 <= fuel' ->
     agrees_loop len (scan_members fuel depth) (scan_members fuel' depth)).
Proof.
  induction len as [|len (IHonce & IHitems & IHmembers)].
  { assert (Honce : forall fuel fuel' depth, 1 <= fuel -> 1 <= fuel' ->
              agrees_once 0 (scan_once fuel depth) (scan_once fuel' depth)).
    { intros [|fuel] [|fuel'] depth Hf Hf'; try lia.
      intros [|c s] Hl; [reflexivity | simpl in Hl; lia]. }
    split; [|split].
    - intros fuel fuel' depth Hf Hf'. apply Honce; lia.
    - intros [|fuel] [|fuel'] depth Hf Hf'; try lia.
      intros acc [|c s] Hl; [|simpl in Hl; lia].
      simpl. unfold scan_item.
      assert (H1 : 1 <= fuel) by lia. assert (H1' : 1 <= fuel') by lia.
      rewrite (Honce fuel fuel' depth H1 H1' "" (Nat.le_refl 0)).
      destruct (scan_once fuel' depth "") as [x|e] eqn:E; [|reflexivity].
      now elim (scan_once_empty _ _ _ E).
    - intros [|fuel] [|fuel'] depth Hf Hf'; try lia.
      intros acc [|c s] Hl; [reflexivity | simpl in Hl; lia]. }
  assert (Honce : forall fuel fuel' depth,
            2 * S len + 1 <= fuel -> 2 * S len + 1 <= fuel' ->
            agrees_once (S len) (scan_once fuel depth) (scan_once fuel' depth)).
  { intros [|fuel] [|fuel'] depth Hf Hf'; try lia. simpl.
    apply scan_value_agrees; [apply IHitems | apply IHmembers]; lia. }
  split; [exact Honce | split].
  - intros [|fuel] [|fuel'] depth Hf Hf'; try lia. simpl.
    apply scan_item_agrees; [apply scan_shrinks | apply Honce; lia | apply IHitems; lia].
  - intros [|fuel] [|fuel'] depth Hf Hf'; try lia. simpl.
    apply scan_member_agrees;
      [apply scan_shrinks | apply IHonce; lia | apply IHmembers; lia].
Qed.

Lemma scan_once_fuel_stable (fuel fuel' depth : nat) (s : string) :
  2 * String.length s + 1 <= fuel -> 2 * String.length s + 1 <= fuel' ->
  scan_once fuel depth s = scan_once fuel' depth s.
Proof.
  intros Hf Hf'.
  now apply (proj1 (scan_fuel_stable (String.length s)) fuel fuel' depth Hf Hf').
Qed.

(** The driver hands out enough fuel: more of it changes nothing in what
    [loads] returns or raises. *)
Lemma loads_fuel_stable (fuel limit : nat) (s : string) :
  2 * String.length s + 2 <= fuel -> loads_fuel fuel limit s = loads limit s.
Proof.
  intros Hf. unfold loads, loads_fuel.
  pose proof (skip_ws_length s) as Hs.
  rewrite (scan_once_fuel_stable fuel (2 * String.length s + 2) limit (skip_ws s));
    [reflexivity | lia | lia].
Qed.

(** *** The values of the loops and the exceptions of the decoder *)

Lemma scan_item_returns_list once items :
  returns_list items -> returns_list (scan_item once items).
Proof.
  intros Hitems acc s v r. unfold scan_item.
  destruct (once s) as [[v1 r1]|e]; [|discriminate].
  destruct (skip_ws r1) as [|c r']; [discriminate|].
  destruct (Ascii.eqb c "]"%char).
  - intros H. inversion H. now eexists.
  - destruct (Ascii.eqb c ","%char); [apply Hitems | discriminate].
Qed.

Lemma scan_member_returns_dict once members :
  returns_dict members -> returns_dict (scan_member once members).
Proof.
  intros Hmembers acc [|q s] v r; simpl; [discriminate|].
  destruct (Ascii.eqb q dquote); [|discriminate].
  destruct (scanstring s) as [[key r1]|]; [|discriminate].
  destruct (skip_ws r1) as [|c2 r2]; [discriminate|].
  destruct (Ascii.eqb c2 ":"%char); [|discriminate].
  destruct (once (skip_ws r2)) as [[v1 r3]|e]; [|discriminate].
  destruct (skip_ws r3) as [|c4 r4]; [discriminate|].
  destruct (Ascii.eqb c4 "}"%char).
  - intros H. inversion H. now eexists.
  - destruct (Ascii.eqb c4 ","%char); [apply Hmembers | discriminate].
Qed.

Lemma scan_returns (fuel depth : nat) :
  returns_list (scan_items fuel depth) /\ returns_dict (scan_members fuel depth).
Proof.
  induction fuel as [|fuel [IHitems IHmembers]].
  { split; intros ? **; discriminate. }
  split; simpl.
  - now apply scan_item_returns_list.
  - now apply scan_member_returns_dict.
Qed.

Lemma scan_value_raises depth items members (s : string) :
  (forall acc x, raises_decoder_exceptions (items acc x)) ->
  (forall acc x, raises_decoder_exceptions (members acc x)) ->
  raises_decoder_exceptions (scan_value depth items members s).
Proof.
  intros Hitems Hmembers. unfold raises_decoder_exceptions, decoder_exception.
  destruct s as [|c s]; simpl; [now left|].
  destruct (Ascii.eqb c dquote).
  { destruct (scanstring s) as [[x r']|]; [exact I | now left]. }
  destruct (Ascii.eqb c "{"%char).
  { destruct depth as [|depth]; [right; now right|].
    destruct (skip_ws s) as [|c1 r1]; [now left|].
    destruct (Ascii.eqb c1 "}"%char); [exact I | apply Hmembers]. }
  destruct (Ascii.eqb c "["%char).
  { destruct depth as [|depth]; [right; now right|].
    destruct (skip_ws s) as [|c1 r1]; [now left|].
    destruct (Ascii.eqb c1 "]"%char); [exact I | apply Hitems]. }
  assert (Hfound : forall o : option (json * string),
            match found o with
            | Ok _ => True
            | Raise e => e = JSONDecodeError \/ e = ValueError \/ e = RecursionError
            end).
  { intros [x|]; simpl; [exact I | now left]. }
  destruct (Ascii.eqb c "n"%char); [apply Hfound|].
  destruct (Ascii.eqb c "t"%char); [apply Hfound|].
  destruct (Ascii.eqb c "f"%char); [apply Hfound|].
  destruct (scan_number (String c s)) as [[n r']|e] eqn:En; [exact I|].
  apply scan_number_raises in En.
  destruct En as [-> | ->]; [apply Hfound | right; now left].
Qed.

Lemma scan_item_raises once items acc (s : string) :
  (forall x, raises_decoder_exceptions (once x)) ->
  (forall acc' x, raises_decoder_exceptions (items acc' x)) ->
  raises_decoder_exceptions (scan_item once items acc s).
Proof.
  intros Honce Hitems. unfold scan_item.
  pose proof (Honce s) as Hs.
  destruct (once s) as [[v r]|e]; [|exact Hs].
  destruct (skip_ws r) as [|c r']; [now left|].
  destruct (Ascii.eqb c "]"%char); [exact I|].
  destruct (Ascii.eqb c ","%char); [apply Hitems | now left].
Qed.

Lemma scan_member_raises once members acc (s : string) :
  (forall x, raises_decoder_exceptions (once x)) ->
  (forall acc' x, raises_decoder_exceptions (members acc' x)) ->
  raises_decoder_exceptions (scan_member once members acc s).
Proof.
  intros Honce Hmembers. destruct s as [|q s]; simpl; [now left|].
  destruct (Ascii.eqb q dquote); [|now left].
  destruct (scanstring s) as [[key r1]|]; [|now left].
  destruct (skip_ws r1) as [|c2 r2]; [now left|].
  destruct (Ascii.eqb c2 ":"%char); [|now left].
  pose proof (Honce (skip_ws r2)) as Hs.
  destruct (once (skip_ws r2)) as [[v r3]|e]; [|exact Hs].
  destruct (skip_ws r3) as [|c4 r4]; [now left|].
  destruct (Ascii.eqb c4 "}"%char); [exact I|].
  destruct (Ascii.eqb c4 ","%char); [apply Hmembers | now left].
Qed.

Lemma scan_raises (fuel : nat) :
  (forall depth s, raises_decoder_exceptions (scan_once fuel depth s)) /\
  (forall depth acc s, raises_decoder_exceptions (scan_items fuel depth acc s)) /\
  (forall depth acc s, raises_decoder_exceptions (scan_members fuel depth acc s)).
Proof.
  induction fuel as [|fuel (IHonce & IHitems & IHmembers)].
  { repeat split; intros; right; now right. }
  split; [|split]; intros; simpl.
  - apply scan_value_raises; intros; [apply IHitems | apply IHmembers].
  - apply scan_item_raises; intros; [apply IHonce | apply IHitems].
  - apply scan_member_raises; intros; [apply IHonce | apply IHmembers].
Qed.

(** [json.loads] raises [JSONDecodeError], [ValueError] or
    [RecursionError], and nothing else. *)
Lemma loads_raises (limit : nat) (s : string) :
  raises_decoder_exceptions (loads limit s).
Proof.
  unfold loads, loads_fuel.
  pose proof (proj1 (scan_raises (2 * String.length s + 2)) limit (skip_ws s)) as H.
  destruct (scan_once _ limit (skip_ws s)) as [[v r]|e]; [|exact H].
  destruct (skip_ws r); [exact I | now left].
Qed.

(** *** The end of a number *)

Lemma append_nil_r (s : string) : s ++ "" = s.
Proof. induction s as [|c s IH]; simpl; [reflexivity | now rewrite IH]. Qed.

Lemma append_assoc_r (a b c : string) : (a ++ b) ++ c = a ++ (b ++ c).
Proof. induction a as [|x a IH]; simpl; [reflexivity | now rewrite IH]. Qed.

Lemma last_char_app (a : string) (c : ascii) (s : string) :
  last_char (a ++ String c s) = last_char (String c s).
Proof.
  induction a as [|x a IH]; [reflexivity|].
  change (String x a ++ String c s) with (String x (a ++ String c s)).
  destruct (a ++ String c s) eqn:E.
  - destruct a; discriminate.
  - rewrite <- E in *. simpl. rewrite E. rewrite <- E. exact IH.
Qed.

Lemma ends_in_digit_app (a b : string) :
  ends_in_digit b = true -> ends_in_digit (a ++ b) = true.
Proof.
  unfold ends_in_digit. destruct b as [|c b]; [discriminate|].
  now rewrite last_char_app.
Qed.

Lemma read_to_digit_trans (s r0 r : string) :
  read_to_digit s r0 -> read_to_digit r0 r \/ r = r0 -> read_to_digit s r.
Proof.
  intros (l0 & -> & H0) [(l1 & -> & H1) | ->].
  - exists (l0 ++ l1). split; [now rewrite append_assoc_r|].
    now apply ends_in_digit_app.
  - now exists l0.
Qed.

Lemma span_digits_read (s d r : string) :
  span_digits s = (d, r) ->
  s = d ++ r /\ (d = "" \/ ends_in_digit d = true).
Proof.
  revert d. induction s as [|c s IH]; intros d; simpl.
  - intros H. inversion H. split; [reflexivity | now left].
  - destruct (is_digit c) eqn:Ec.
    + destruct (span_digits s) as [d' r'] eqn:Es. intros H. inversion H. subst.
      destruct (IH d' eq_refl) as [-> Hd]. split; [reflexivity|]. right.
      destruct Hd as [-> | Hd]; [exact Ec|].
      now apply (ends_in_digit_app (String c "") d').
    + intros H. inversion H. split; [reflexivity | now left].
Qed.

Lemma scan_int_digits_read neg (s : string) sign (i r : string) :
  scan_int_digits neg s = Some (sign, i, r) -> read_to_digit s r.
Proof.
  unfold scan_int_digits. destruct s as [|c s]; [discriminate|].
  destruct (Ascii.eqb c "0"%char) eqn:E0.
  - intros H. inversion H. subst. apply Ascii.eqb_eq in E0. subst c.
    now exists "0".
  - destruct (is_digit c) eqn:Ec; [|discriminate].
    destruct (span_digits s) as [d r'] eqn:Es. intros H. inversion H. subst.
    destruct (span_digits_read _ _ _ Es) as [-> Hd].
    exists (String c d). split; [reflexivity|].
    destruct Hd as [-> | Hd]; [exact Ec|].
    now apply (ends_in_digit_app (String c "") d).
Qed.

Lemma scan_int_read (s : string) sign (i r : string) :
  scan_int s = Some (sign, i, r) -> read_to_digit s r.
Proof.
  unfold scan_int. destruct s as [|c s]; [discriminate|].
  destruct (Ascii.eqb c "-"%char).
  - intros H. apply scan_int_digits_read in H. destruct H as (l & -> & Hl).
    exists (String c l). split; [reflexivity|].
    now apply (ends_in_digit_app (String c "") l).
  - apply scan_int_digits_read.
Qed.

Lemma span_digits_read_some (x s : string) (a : ascii) (d r : string) :
  span_digits s = (String a d, r) -> read_to_digit (x ++ s) r.
Proof.
  intros Es. destruct (span_digits_read _ _ _ Es) as [-> Hd].
  destruct Hd as [Hd | Hd]; [discriminate|].
  exists (x ++ String a d). split; [now rewrite append_assoc_r|].
  now apply ends_in_digit_app.
Qed.

Lemma scan_frac_read (s f r : string) :
  scan_frac s = (f, r) -> read_to_digit s r \/ r = s.
Proof.
  unfold scan_frac. destruct s as [|c s]; [intros H; inversion H; now right|].
  destruct (Ascii.eqb c "."%char); [|intros H; inversion H; now right].
  destruct (span_digits s) as [[|a d] r'] eqn:Es; intros H; inversion H; subst;
    [now right|].
  left. apply (span_digits_read_some (String c "") _ _ _ _ Es).
Qed.

Lemma scan_exp_digits_read neg (x s whole : string) (e : option Z) (r : string) :
  whole = x ++ s ->
  scan_exp_digits neg s whole = (e, r) -> read_to_digit whole r \/ r = whole.
Proof.
  intros ->. unfold scan_exp_digits.
  destruct (span_digits s) as [[|a d] r'] eqn:Es; intros H; inversion H; subst;
    [now right|].
  left. now apply (span_digits_read_some x _ _ _ _ Es).
Qed.

Lemma scan_exp_read (s : string) (e : option Z) (r : string) :
  scan_exp s = (e, r) -> read_to_digit s r \/ r = s.
Proof.
  unfold scan_exp. destruct s as [|c s]; [intros H; inversion H; now right|].
  destruct (is_exp_letter c); [|intros H; inversion H; now right].
  destruct s as [|sg s]; [intros H; inversion H; now right|].
  destruct (Ascii.eqb sg "-"%char); [|destruct (Ascii.eqb sg "+"%char)].
  - apply (scan_exp_digits_read true (String c (String sg ""))). reflexivity.
  - apply (scan_exp_digits_read false (String c (String sg ""))). reflexivity.
  - apply (scan_exp_digits_read false (String c "")). reflexivity.
Qed.

(** The text of a number ends in a digit. *)
Lemma scan_number_read (s : string) (n : number) (r : string) :
  scan_number s = Ok (n, r) -> read_to_digit s r.
Proof.
  unfold scan_number.
  destruct (scan_int s) as [[[neg i] r0]|] eqn:Ei; [|discriminate].
  destruct (scan_frac r0) as [f r1] eqn:Ef.
  destruct (scan_exp r1) as [e r2] eqn:Ee.
  intros H.
  assert (r2 = r) as ->.
  { destruct f; [destruct e|]; try (now inversion H).
    destruct (max_str_digits <? N.of_nat (String.length i))%N; now inversion H. }
  apply scan_int_read in Ei. apply scan_frac_read in Ef. apply scan_exp_read in Ee.
  apply (read_to_digit_trans s r1); [|exact Ee].
  now apply (read_to_digit_trans s r0).
Qed.

(** A number that was read to the end of the text: the text ends in a
    digit. *)
Lemma scan_once_number_end (fuel depth : nat) (s : string) (v : json) :
  scan_once fuel depth s = Ok (v, "") -> ends_number v = true ->
  ends_in_digit s = true.
Proof.
  destruct fuel as [|fuel]; [discriminate|]. simpl.
  destruct (scan_returns fuel (pred depth)) as [Hlist Hdict].
  destruct s as [|c s]; simpl; [discriminate|].
  destruct (Ascii.eqb c dquote).
  { destruct (scanstring s) as [[x r']|]; [|discriminate].
    intros H. inversion H. discriminate. }
  destruct (Ascii.eqb c "{"%char).
  { destruct depth as [|depth]; [discriminate|].
    destruct (skip_ws s) as [|c1 r1]; [discriminate|].
    destruct (Ascii.eqb c1 "}"%char).
    - intros H. inversion H. discriminate.
    - intros H. apply Hdict in H. destruct H as [members ->]. discriminate. }
  destruct (Ascii.eqb c "["%char).
  { destruct depth as [|depth]; [discriminate|].
    destruct (skip_ws s) as [|c1 r1]; [discriminate|].
    destruct (Ascii.eqb c1 "]"%char).
    - intros H. inversion H. discriminate.
    - intros H. apply Hlist in H. destruct H as [items ->]. discriminate. }
  assert (Hliteral : forall word w,
            ends_number w = false ->
            found (scan_literal word w s) = Ok (v, "") -> ends_number v = true ->
            ends_in_digit (String c s) = true).
  { intros word w Hw H. apply found_ok in H. unfold scan_literal in H.
    destruct (strip_prefix word s); [|discriminate]. inversion H. subst.
    rewrite Hw. discriminate. }
  destruct (Ascii.eqb c "n"%char); [now apply Hliteral|].
  destruct (Ascii.eqb c "t"%char); [now apply Hliteral|].
  destruct (Ascii.eqb c "f"%char); [now apply Hliteral|].
  destruct (scan_number (String c s)) as [[n r']|e] eqn:En.
  - intros H _. inversion H. subst.
    apply scan_number_read in En. destruct En as (l & El & Hl).
    rewrite append_nil_r in El. now rewrite El.
  - destruct e; try discriminate.
    intros H. apply found_ok in H. unfold scan_constant in H.
    destruct (strip_prefix "NaN" (String c s)); [inversion H; discriminate|].
    destruct (strip_prefix "Infinity" (String c s)); [inversion H; discriminate|].
    destruct (strip_prefix "-Infinity" (String c s)); [inversion H; discriminate|].
    discriminate.
Qed.

(** *** Text behind a document *)

Lemma blank_terminated (s : string) : blank s -> terminated s.
Proof.
  unfold blank. destruct s as [|c s]; simpl; [trivial|].
  destruct (is_ws c) eqn:E; [intros _; now apply is_ws_not_number | discriminate].
Qed.

Lemma blank_app (s t : string) : blank s -> blank t -> blank (s ++ t).
Proof.
  intros Hs Ht. unfold blank. now rewrite skip_ws_app_blank.
Qed.

(** The blanks in front of a text do not change how it ends. *)
Lemma skip_ws_last (s : string) (c : ascii) (s0 : string) :
  skip_ws s = String c s0 -> last_char s = last_char (String c s0).
Proof.
  induction s as [|a s IH]; simpl skip_ws; [discriminate|].
  destruct (is_ws a).
  - intros H. specialize (IH H). destruct s as [|b s]; [discriminate|].
    change (last_char (String a (String b s))) with (last_char (String b s)).
    exact IH.
  - intros H. now inversion H.
Qed.

(** What [loads] decodes, it decodes with the fuel it takes. *)
Lemma loads_scan (limit : nat) (s : string) (v : json) :
  loads limit s = Ok v ->
  exists c s0 r,
    skip_ws s = String c s0 /\
    scan_once (2 * String.length s + 2) limit (String c s0) = Ok (v, r) /\
    blank r.
Proof.
  unfold loads, loads_fuel. intros H.
  destruct (skip_ws s) as [|c s0] eqn:Es.
  { destruct (scan_once _ limit "") as [x|e] eqn:E; [|discriminate].
    now elim (scan_once_empty _ _ _ E). }
  destruct (scan_once _ limit (String c s0)) as [[v' r]|e] eqn:E; [|discriminate].
  destruct (skip_ws r) eqn:Er; [|discriminate]. inversion H. subst.
  now exists c, s0, r.
Qed.

(** What [loads] decodes from a text, the scanner reads from the text with
    something behind it. *)
Lemma loads_scan_longer (limit : nat) (s t : string) (v : json) :
  loads limit s = Ok v ->
  (ends_number v = true -> ends_in_digit s = true -> terminated t) ->
  exists c s0 r,
    skip_ws (s ++ t) = String c (s0 ++ t) /\
    scan_once (2 * String.length (s ++ t) + 2) limit (String c (s0 ++ t))
    = Ok (v, r ++ t) /\
    blank r.
Proof.
  intros Hs Ht. apply loads_scan in Hs.
  destruct Hs as (c & s0 & r & Hw & Hscan & Hr).
  exists c, s0, r. split; [now apply skip_ws_app | split; [|exact Hr]].
  pose proof (skip_ws_length s) as Hlen. rewrite Hw in Hlen.
  rewrite (scan_once_fuel_stable _ (2 * String.length (s ++ t) + 2) limit) in Hscan;
    [|lia | rewrite length_append; lia].
  change (String c (s0 ++ t)) with (String c s0 ++ t).
  refine (proj1 (scan_app t _ limit) _ _ _ Hscan _).
  intros Hv. destruct r as [|a r].
  - apply Ht; [exact Hv|].
    apply scan_once_number_end in Hscan; [|exact Hv].
    unfold ends_in_digit in *. now rewrite (skip_ws_last _ _ _ Hw).
  - unfold blank in Hr. simpl in Hr |- *.
    destruct (is_ws a) eqn:Ea; [now apply is_ws_not_number | discriminate].
Qed.

(** Text behind a document makes the whole undecodable, unless the text is
    blank or carries on a number the document ends with. *)
Lemma loads_extra_text (limit : nat) (s t : string) (v : json) :
  loads limit s = Ok v ->
  (ends_number v = true -> ends_in_digit s = true -> terminated t) ->
  ~ blank t ->
  loads limit (s ++ t) = Raise JSONDecodeError.
Proof.
  intros Hs Hv Ht.
  destruct (loads_scan_longer _ _ _ _ Hs Hv) as (c & s0 & r & Hw & Hscan & Hr).
  unfold loads, loads_fuel. rewrite Hw, Hscan, (skip_ws_app_blank _ _ Hr).
  destruct (skip_ws t) eqn:Et; [now elim Ht | reflexivity].
Qed.

(** Blanks behind a document change nothing. *)
Lemma loads_blank_tail (limit : nat) (s t : string) (v : json) :
  loads limit s = Ok v -> blank t -> loads limit (s ++ t) = Ok v.
Proof.
  intros Hs Ht.
  destruct (loads_scan_longer limit s t v Hs) as (c & s0 & r & Hw & Hscan & Hr).
  { intros _ _. now apply blank_terminated. }
  unfold loads, loads_fuel. rewrite Hw, Hscan, (skip_ws_app_blank _ _ Hr).
  unfold blank in Ht. now rewrite Ht.
Qed.

(** A text of blanks is no document. *)
Lemma loads_blank (limit : nat) (s : string) :
  blank s -> loads limit s = Raise JSONDecodeError.
Proof.
  unfold blank, loads, loads_fuel. intros ->.
  now replace (2 * String.length s + 2) with (S (2 * String.length s + 1)) by lia.
Qed.

End DecoderFacts.

(* ====================================================================== *)
(** ** Properties of the search for the field list *)
(* ====================================================================== *)

(** When the test of lines 130-131 holds, both subscripts of line 132 find
    their keys and the second gives a list: the nested list of the
    specification's search. *)
Lemma result_fields_is_list_true (describe_data : json) :
  result_fields_is_list describe_data = Ok true ->
  exists res fields,
    getitem describe_data "result" = Ok res /\
    getitem res "fields" = Ok (JList fields) /\
    nested_fields describe_data = Some fields.
Proof.
  unfold result_fields_is_list, nested_fields.
  destruct describe_data as [| | | | |members]; cbn; try discriminate.
  - destruct (str_contains "result" s); discriminate.
  - destruct (existsb (eq_str "result") items); discriminate.
  - rewrite dict_has_lookup.
    destruct (dict_lookup "result" members) as [res|]; cbn; [|discriminate].
    destruct res as [| | | | |rm]; cbn; try discriminate.
    + destruct (str_contains "fields" s); discriminate.
    + destruct (existsb (eq_str "fields") items); discriminate.
    + rewrite dict_has_lookup.
      destruct (dict_lookup "fields" rm) as [[]|] eqn:Ef; cbn; try discriminate.
      intros _. exists (JDict rm), items. cbn. now rewrite Ef.
Qed.

(** When it fails without raising, there is no nested list. *)
Lemma result_fields_is_list_false (describe_data : json) :
  result_fields_is_list describe_data = Ok false ->
  nested_fields describe_data = None.
Proof.
  unfold result_fields_is_list, nested_fields.
  destruct describe_data as [| | | | |members]; cbn; try reflexivity.
  rewrite dict_has_lookup.
  destruct (dict_lookup "result" members) as [res|]; cbn; [|reflexivity].
  destruct res as [| | | | |rm]; cbn; try reflexivity.
  rewrite dict_has_lookup.
  destruct (dict_lookup "fields" rm) as [[]|]; cbn; try reflexivity.
  discriminate.
Qed.

Lemma direct_fields_is_list_true (describe_data : json) :
  direct_fields_is_list describe_data = Ok true ->
  exists fields,
    getitem describe_data "fields" = Ok (JList fields) /\
    direct_fields describe_data = Some fields.
Proof.
  unfold direct_fields_is_list, direct_fields.
  destruct describe_data as [| | | | |members]; cbn; try discriminate.
  - destruct (str_contains "fields" s); discriminate.
  - destruct (existsb (eq_str "fields") items); discriminate.
  - rewrite dict_has_lookup.
    destruct (dict_lookup "fields" members) as [[]|] eqn:Ef; cbn; try discriminate.
    intros _. now exists items.
Qed.

Lemma direct_fields_is_list_false (describe_data : json) :
  direct_fields_is_list describe_data = Ok false ->
  direct_fields describe_data = None.
Proof.
  unfold direct_fields_is_list, direct_fields.
  destruct describe_data as [| | | | |members]; cbn; try reflexivity.
  rewrite dict_has_lookup.
  destruct (dict_lookup "fields" members) as [[]|]; cbn; try reflexivity.
  discriminate.
Qed.

(** What the search does, in the three cases of the specification: it
    scans the nested list, or else the top-level one, or else nothing; and
    it scans nothing when one of its tests raises. *)
Lemma collect_fields_cases (describe_data : json) (field_list : list json) :
  (exists fields,
     nested_fields describe_data = Some fields /\
     collect_fields describe_data field_list = for_each_field fields field_list) \/
  (exists fields,
     nested_fields describe_data = None /\
     direct_fields describe_data = Some fields /\
     collect_fields describe_data field_list = for_each_field fields field_list) \/
  (nested_fields describe_data = None /\
   direct_fields describe_data = None /\
   exists r, collect_fields describe_data field_list = (field_list, r)) \/
  (exists e, collect_fields describe_data field_list = (field_list, Raise e)).
Proof.
  unfold collect_fields, scan_bind, lift.
  destruct (result_fields_is_list describe_data) as [[|]|e] eqn:En.
  - destruct (result_fields_is_list_true _ En) as (res & fields & -> & -> & Hn).
    left. now exists fields.
  - apply result_fields_is_list_false in En.
    destruct (direct_fields_is_list describe_data) as [[|]|e] eqn:Ed.
    + destruct (direct_fields_is_list_true _ Ed) as (fields & -> & Hd).
      right. left. now exists fields.
    + apply direct_fields_is_list_false in Ed.
      right. right. left. split; [exact En | split; [exact Ed|]].
      destruct (result_keys describe_data) as [text|e]; now eexists.
    + right. right. right. now exists e.
  - right. right. right. now exists e.
Qed.

(** A search that raises nothing has scanned the fields the
    specification's search finds, to the last, and none of them stopped
    it. *)
Lemma collect_fields_ok (describe_data : json) (field_list recorded : list json) :
  collect_fields describe_data field_list = (recorded, Ok tt) ->
  recorded
  = (field_list ++ map name_of (filter qualifiesb (located_fields describe_data)))%list
  /\ first_exception (located_fields describe_data) = None.
Proof.
  intros H. unfold located_fields.
  assert (Hscan : forall fields,
            for_each_field fields field_list = (recorded, Ok tt) ->
            recorded = (field_list ++ map name_of (filter qualifiesb fields))%list
            /\ first_exception fields = None).
  { intros fields Hf. rewrite for_each_field_scan in Hf.
    destruct (first_exception fields) eqn:Ee; [discriminate|].
    rewrite (reached_all _ Ee) in Hf. split; [now inversion Hf | reflexivity]. }
  destruct (collect_fields_cases describe_data field_list)
    as [(fields & -> & Hc) | [(fields & -> & -> & Hc) | [(-> & -> & r & Hc) | (e & Hc)]]];
    rewrite Hc in H.
  - now apply Hscan.
  - now apply Hscan.
  - inversion H. cbn. now rewrite app_nil_r.
  - discriminate.
Qed.

(** The names that line 166 finds recorded, when it is reached, are the
    names of the qualifying fields among those the specification's search
    finds. *)
Lemma lookup_fields_ok (describe_data : json) (field_list : list json) :
  lookup_fields describe_data = Ok field_list ->
  field_list = map name_of (filter qualifiesb (located_fields describe_data))
  /\ first_exception (located_fields describe_data) = None.
Proof.
  unfold lookup_fields.
  destruct (top_level_keys describe_data); cbn [bind]; [|discriminate].
  destruct (collect_fields describe_data []) as [recorded [[]|e]] eqn:E;
    [|discriminate].
  intros H. inversion H. subst. now apply collect_fields_ok in E.
Qed.

(** On a response of the documented shape no test of the search raises:
    the fields the specification's search finds are scanned, and when it
    finds none the keys of [result] are printed. *)
Lemma collect_fields_documented (describe_data : json) (field_list : list json) :
  documented_response describe_data ->
  collect_fields describe_data field_list
  = match nested_fields describe_data, direct_fields describe_data with
    | Some fields, _ => for_each_field fields field_list
    | None, Some fields => for_each_field fields field_list
    | None, None =>
        (field_list,
         if existsb has_surrogate (result_keys_shown describe_data)
         then Raise UnicodeEncodeError else Ok tt)
    end.
Proof.
  intros (members & -> & Hres).
  unfold collect_fields, result_keys_shown, nested_fields, direct_fields,
    result_fields_is_list, direct_fields_is_list, result_keys, scan_bind, lift.
  cbn. rewrite !dict_has_lookup.
  destruct (dict_lookup "result" members) as [res|] eqn:Er; cbn.
  - destruct res as [| | | | |rm]; try contradiction. cbn.
    rewrite dict_has_lookup.
    assert (Hprint : print [JStr (join_strs ", " (map fst rm))]
                     = if existsb has_surrogate (map fst rm)
                       then Raise UnicodeEncodeError else Ok tt).
    { unfold print. cbn. rewrite has_surrogate_join.
      now destruct (existsb has_surrogate (map fst rm)). }
    destruct (dict_lookup "fields" rm) as [f|] eqn:Ef; cbn.
    + destruct f; cbn; try reflexivity;
        destruct (dict_lookup "fields" members) as [f'|]; cbn;
        try (destruct f'; cbn); try reflexivity; now rewrite Hprint.
    + destruct (dict_lookup "fields" members) as [f'|]; cbn;
        try (destruct f'; cbn); try reflexivity; now rewrite Hprint.
  - destruct (dict_lookup "fields" members) as [f'|]; cbn;
      try (destruct f'; cbn); reflexivity.
Qed.

(** On a response of the documented shape that shows no key with a lone
    surrogate, the script scans the fields the specification's search
    finds: [result.fields] when it is a list, else [fields] when it is a
    list, else nothing. *)
Lemma collect_fields_located (describe_data : json) (field_list : list json) :
  documented_response describe_data ->
  existsb has_surrogate (result_keys_shown describe_data) = false ->
  collect_fields describe_data field_list
  = for_each_field (located_fields describe_data) field_list.
Proof.
  intros Hd Hkeys. rewrite (collect_fields_documented _ _ Hd), Hkeys.
  unfold located_fields.
  destruct (nested_fields describe_data); [reflexivity|].
  destruct (direct_fields describe_data); reflexivity.
Qed.

(** The debug line of line 107 on an object. *)
Lemma top_level_keys_dict (members : list (string * json)) :
  top_level_keys (JDict members)
  = if existsb has_surrogate (map fst members)
    then Raise UnicodeEncodeError else Ok tt.
Proof.
  unfold top_level_keys. destruct members as [|m members]; [reflexivity|].
  cbn [truthy keys bind]. unfold print. cbn [forallb printable].
  rewrite has_surrogate_join.
  now destruct (existsb has_surrogate (map fst (m :: members))).
Qed.

(** On documented responses with documented entries the scan comes to its
    end with the names of the qualifying fields that were found. *)
Lemma lookup_fields_documented (describe_data : json) :
  documented_response describe_data ->
  existsb has_surrogate (shown_keys describe_data) = false ->
  Forall documented_entry (located_fields describe_data) ->
  lookup_fields describe_data
  = Ok (map name_of (filter qualifiesb (located_fields describe_data))).
Proof.
  intros Hd Hkeys Hf. unfold lookup_fields.
  assert (Hk : existsb has_surrogate (result_keys_shown describe_data) = false
               /\ top_level_keys describe_data = Ok tt).
  { destruct Hd as (members & -> & _). unfold shown_keys in Hkeys.
    rewrite existsb_app in Hkeys. apply orb_false_iff in Hkeys.
    destruct Hkeys as [Hk1 Hk2]. split; [exact Hk2|].
    now rewrite top_level_keys_dict, Hk1. }
  destruct Hk as [Hk Ht].
  rewrite Ht, (collect_fields_located _ _ Hd Hk), (for_each_field_documented _ _ Hf).
  reflexivity.
Qed.

(** C4.  The search for the field list raises on a response whose [result]
    is there but is no object: [TypeError] on line 130 for a [null], since
    ['fields' in None] cannot be tested, and [AttributeError] on line 160
    for an empty list, which has no [keys()].  Neither response holds a
    list of fields anywhere, yet neither is taken as one without fields.
    Both texts are documents that [json.loads] accepts. *)
Theorem result_that_is_no_object_raises :
  (forall limit, 1 <= limit ->
     JsonDecoder.loads limit ("{" ++ Scripted.q "result" ++ ": null}")
     = Ok (JDict [("result", JNull)])) /\
  located_fields (JDict [("result", JNull)]) = [] /\
  lookup_fields (JDict [("result", JNull)]) = Raise TypeError /\
  (forall limit, 2 <= limit ->
     JsonDecoder.loads limit ("{" ++ Scripted.q "result" ++ ": []}")
     = Ok (JDict [("result", JList [])])) /\
  located_fields (JDict [("result", JList [])]) = [] /\
  lookup_fields (JDict [("result", JList [])]) = Raise AttributeError.
Proof.
  repeat split; try reflexivity.
  - intros limit Hl. destruct limit as [|limit]; [lia|]. vm_compute. reflexivity.
  - intros limit Hl. do 2 (destruct limit as [|limit]; [lia|]). vm_compute. reflexivity.
Qed.

(* ====================================================================== *)
(** ** Properties of one turn of the main loop *)
(* ====================================================================== *)

Lemma filter_qualifies_none (fields : list json) :
  (forall field, In field fields -> ~ qualifies field) ->
  filter qualifiesb fields = [].
Proof.
  induction fields as [|f fields IH]; intros Hnone; [reflexivity|]. simpl.
  destruct (qualifiesb f) eqn:E.
  - apply qualifiesb_spec in E. elim (Hnone f (or_introl eq_refl) E).
  - apply IH. intros x Hx. apply Hnone. now right.
Qed.

Section Turn.

Context {World : Type}.
Variable sys : os World.

(** The main loop after a turn that raised nothing. *)
Lemma run_objects_next json_loads (obj : string) (rest : list string)
  (w w' : World) (events : list event) (o : outcome) :
  process_object sys json_loads obj w = (w', events, Ok o) ->
  run_objects sys json_loads (obj :: rest) w
  = (let '(w'', later, e) := run_objects sys json_loads rest w' in
     (w'', (events ++ Reported obj o :: later)%list, e)).
Proof. intros H. simpl. now rewrite H. Qed.

(** C5.  A describe response in which no located field qualifies never
    leads to an export: the turn runs the describe command, writes the
    dump and nothing more.  It ends as [NoQualifyingFields], and the loop
    goes on with the next object type, when the lookup of the fields
    raises nothing.  When the lookup raises, the exception ends the run
    then and there, and the object types behind are not processed.  That
    is what happens on [{"result": null}], which holds no field at all:
    the test of line 130 raises [TypeError]. *)
Theorem no_qualifying_fields_skips_export json_loads
  (obj : string) (rest : list string) (w w1 : World)
  (result : completed) (describe_data : json) :
  subprocess_run sys (describe_command obj) w = (Some result, w1) ->
  json_loads (stdout result ++ stderr result) = Ok describe_data ->
  (forall field, In field (located_fields describe_data) -> ~ qualifies field) ->
  let w2 := write_text sys (describe_file obj) (stdout result ++ stderr result) w1 in
  let events :=
    [Ran (describe_command obj);
     Wrote (describe_file obj) (stdout result ++ stderr result)] in
  fst (process_object sys json_loads obj w) = (w2, events) /\
  (forall query path, ~ In (Ran (export_command query path)) events) /\
  ((forall e, lookup_fields describe_data <> Raise e) ->
   process_object sys json_loads obj w = (w2, events, Ok NoQualifyingFields) /\
   run_objects sys json_loads (obj :: rest) w
   = (let '(w', later, e) := run_objects sys json_loads rest w2 in
      (w', (events ++ Reported obj NoQualifyingFields :: later)%list, e))) /\
  (forall e,
     lookup_fields describe_data = Raise e ->
     run_objects sys json_loads (obj :: rest) w = (w2, events, Aborted e)) /\
  located_fields (JDict [("result", JNull)]) = [] /\
  lookup_fields (JDict [("result", JNull)]) = Raise TypeError.
Proof.
  intros Hrun Hparse Hnone w2 events.
  assert (Hturn : process_object sys json_loads obj w
                  = (w2, events,
                     match lookup_fields describe_data with
                     | Ok _ => Ok NoQualifyingFields
                     | Raise e => Raise e
                     end)).
  { unfold process_object. rewrite Hrun, Hparse. unfold export_described.
    destruct (lookup_fields describe_data) as [field_list|e] eqn:El; [|reflexivity].
    apply lookup_fields_ok in El. destruct El as [El _].
    rewrite (filter_qualifies_none _ Hnone) in El. now subst field_list. }
  split; [now rewrite Hturn | split; [|split; [|split; [|split]]]].
  - intros query path [H | [H | []]]; discriminate H.
  - intros Hok.
    assert (Hturn' : process_object sys json_loads obj w
                     = (w2, events, Ok NoQualifyingFields)).
    { rewrite Hturn. destruct (lookup_fields describe_data) as [fl|e];
        [reflexivity | now elim (Hok e)]. }
    split; [exact Hturn' | now apply run_objects_next].
  - intros e He. simpl. now rewrite Hturn, He.
  - reflexivity.
  - reflexivity.
Qed.

(** C6.  An export succeeds exactly when the command ran, returned zero
    and left a file at the output path.  An exception counts as the exit
    code [-1]; every other outcome is a failure with the exit code: a
    command that could not run, a code other than zero whatever lies at
    the path, a zero without a file. *)
Theorem export_succeeds_iff_zero_and_file (obj query : string) (w : World) :
  let ran := fst (subprocess_run sys (export_command query (output_path obj)) w) in
  let w' := snd (subprocess_run sys (export_command query (output_path obj)) w) in
  let o := snd (run_export sys obj query w) in
  (o = Succeeded <->
   (exists result, ran = Some result /\ returncode result = 0%Z) /\
   path_exists sys (output_path obj) w' = true) /\
  (ran = None -> o = Failed (-1)) /\
  (forall result,
     ran = Some result -> returncode result <> 0%Z -> o = Failed (returncode result)) /\
  (forall result,
     ran = Some result -> path_exists sys (output_path obj) w' = false ->
     o = Failed (returncode result)) /\
  fst (run_export sys obj query w)
  = (w', [Ran (export_command query (output_path obj))]).
Proof.
  unfold run_export.
  destruct (subprocess_run sys (export_command query (output_path obj)) w)
    as [[result|] w'] eqn:Hrun; simpl.
  - destruct (Z.eqb_spec (returncode result) 0) as [Hz | Hnz]; simpl.
    + destruct (path_exists sys (output_path obj) w') eqn:Hfile.
      * repeat split; try discriminate.
        -- now exists result.
        -- intros r Hr Hne. inversion Hr. subst. contradiction.
      * repeat split; try discriminate.
        -- intros [_ H]. discriminate.
        -- intros r Hr Hne. inversion Hr. subst. contradiction.
        -- intros r Hr _. now inversion Hr.
    + repeat split; try discriminate.
      * intros [(r & Hr & Hz) _]. inversion Hr. subst. contradiction.
      * intros r Hr _. now inversion Hr.
      * intros r Hr _. now inversion Hr.
  - repeat split; try discriminate.
    intros [(r & Hr & _) _]. discriminate.
Qed.

(** The errors the script handles end a turn without an exception: a
    describe command that cannot run, a response that [json.loads] rejects
    with [JSONDecodeError], an export command that cannot run.  Any other
    exception of [json.loads] leaves the turn. *)
Lemma handled_errors_end_the_turn json_loads (obj : string) (w : World) :
  (forall w1,
     subprocess_run sys (describe_command obj) w = (None, w1) ->
     snd (process_object sys json_loads obj w) = Ok InvocationFailed) /\
  (forall result w1,
     subprocess_run sys (describe_command obj) w = (Some result, w1) ->
     json_loads (stdout result ++ stderr result) = Raise JSONDecodeError ->
     snd (process_object sys json_loads obj w) = Ok UnparseableResponse) /\
  (forall result w1 e,
     subprocess_run sys (describe_command obj) w = (Some result, w1) ->
     json_loads (stdout result ++ stderr result) = Raise e ->
     e <> JSONDecodeError ->
     snd (process_object sys json_loads obj w) = Raise e) /\
  (forall query w2,
     subprocess_run sys (export_command query (output_path obj)) w = (None, w2) ->
     snd (run_export sys obj query w) = Failed (-1)).
Proof.
  split; [|split; [|split]].
  - intros w1 H. unfold process_object. now rewrite H.
  - intros result w1 H Hp. unfold process_object. now rewrite H, Hp.
  - intros result w1 e H Hp He. unfold process_object. rewrite H, Hp.
    destruct e; try reflexivity. now elim He.
  - intros query w2 H. unfold run_export. now rewrite H.
Qed.

(** The loop comes to its end, with a report for every object type, when
    no turn raises. *)
Lemma run_objects_completes json_loads (objs : list string) (w : World) :
  (forall obj w0, In obj objs ->
     exists o, snd (process_object sys json_loads obj w0) = Ok o) ->
  snd (run_objects sys json_loads objs w) = Completed /\
  forall obj, In obj objs ->
    exists o, In (Reported obj o) (snd (fst (run_objects sys json_loads objs w))).
Proof.
  revert w. induction objs as [|obj objs IH]; intros w Hok; simpl.
  - split; [reflexivity | intros obj []].
  - destruct (Hok obj w (or_introl eq_refl)) as [o Ho].
    destruct (process_object sys json_loads obj w) as [[w' events] r].
    simpl in Ho. subst r.
    destruct (IH w' (fun x w0 Hx => Hok x w0 (or_intror Hx))) as [Hend Hrep].
    destruct (run_objects sys json_loads objs w') as [[w'' later] e].
    simpl in *. split; [exact Hend|].
    intros x [<- | Hx].
    + exists o. apply in_or_app. right. now left.
    + destruct (Hrep x Hx) as [o' Ho']. exists o'.
      apply in_or_app. right. now right.
Qed.

(** C7.  An exception raised while the fields of a parsed response are
    looked up is caught by nothing: it ends the run at that object type.
    The turn has run the describe command and written the dump; no object
    type behind it in the list is described, and the run does not come to
    its closing banner. *)
Theorem unexpected_shape_aborts_the_run json_loads
  (obj : string) (rest : list string) (w w1 : World)
  (result : completed) (describe_data : json) (e : exn) :
  subprocess_run sys (describe_command obj) w = (Some result, w1) ->
  json_loads (stdout result ++ stderr result) = Ok describe_data ->
  lookup_fields describe_data = Raise e ->
  run_objects sys json_loads (obj :: rest) w
  = (write_text sys (describe_file obj) (stdout result ++ stderr result) w1,
     [Ran (describe_command obj);
      Wrote (describe_file obj) (stdout result ++ stderr result)],
     Aborted e).
Proof.
  intros Hrun Hparse Hraise. simpl. unfold process_object.
  rewrite Hrun, Hparse. unfold export_described. now rewrite Hraise.
Qed.

(** C9, as the script does it.  The text that is written to the dump and
    handed to the parser is the standard output followed by the standard
    error: the turn starts with the describe command and the dump of that
    text, and it depends on the parser only through what the parser makes
    of that text.  It ends as [UnparseableResponse] when the parser rejects
    the text with [JSONDecodeError]; any other exception of the parser
    leaves the turn.  With Python's decoder: when [json.loads] decodes the
    standard output alone and the standard error holds more than blanks,
    the text is rejected and the object type is skipped, unless the
    standard output ends with the last digit of a bare number and the
    standard error begins with a character that carries a number on.  A
    standard error of blanks alone changes nothing in what is parsed. *)
Theorem describe_output_is_stdout_then_stderr
  (obj : string) (w w1 : World) (result : completed) :
  subprocess_run sys (describe_command obj) w = (Some result, w1) ->
  let describe_output := stdout result ++ stderr result in
  (forall json_loads, exists w' events r,
     process_object sys json_loads obj w
     = (w', Ran (describe_command obj)
            :: Wrote (describe_file obj) describe_output :: events, r)) /\
  (forall json_loads json_loads',
     json_loads describe_output = json_loads' describe_output ->
     process_object sys json_loads obj w = process_object sys json_loads' obj w) /\
  (forall json_loads,
     json_loads describe_output = Raise JSONDecodeError ->
     snd (process_object sys json_loads obj w) = Ok UnparseableResponse) /\
  (forall json_loads e,
     json_loads describe_output = Raise e -> e <> JSONDecodeError ->
     snd (process_object sys json_loads obj w) = Raise e) /\
  (forall limit v,
     JsonDecoder.loads limit (stdout result) = Ok v ->
     ~ Shape.blank (stderr result) ->
     (Shape.ends_number v = true -> Shape.ends_in_digit (stdout result) = true ->
      Shape.terminated (stderr result)) ->
     JsonDecoder.loads limit describe_output = Raise JSONDecodeError /\
     snd (process_object sys (JsonDecoder.loads limit) obj w) = Ok UnparseableResponse) /\
  (forall limit v,
     JsonDecoder.loads limit (stdout result) = Ok v ->
     Shape.blank (stderr result) ->
     JsonDecoder.loads limit describe_output = Ok v).
Proof.
  intros Hrun describe_output.
  assert (Hrejected : forall json_loads,
            json_loads describe_output = Raise JSONDecodeError ->
            snd (process_object sys json_loads obj w) = Ok UnparseableResponse).
  { intros json_loads Hp. unfold process_object. rewrite Hrun.
    fold describe_output. now rewrite Hp. }
  split; [|split; [|split; [|split; [|split]]]].
  - intros json_loads. unfold process_object. rewrite Hrun. fold describe_output.
    destruct (json_loads describe_output) as [describe_data|e].
    + destruct (export_described sys obj describe_data _) as [[w3 events] r].
      now exists w3, events, r.
    + destruct e; now eexists _, [], _.
  - intros json_loads json_loads' Heq. unfold process_object. rewrite Hrun.
    fold describe_output. now rewrite Heq.
  - exact Hrejected.
  - intros json_loads e Hp He. unfold process_object. rewrite Hrun.
    fold describe_output. rewrite Hp. destruct e; try reflexivity. now elim He.
  - intros limit v Hv Hb Hn.
    pose proof (DecoderFacts.loads_extra_text _ _ _ _ Hv Hn Hb) as Hnone.
    split; [exact Hnone | now apply Hrejected].
  - intros limit v Hv Hb. now apply DecoderFacts.loads_blank_tail.
Qed.

End Turn.

(** A turn raises nothing when [json.loads] decodes the text or rejects it
    with [JSONDecodeError], and the response that was parsed has the
    documented shape, shows no key with a lone surrogate, and has
    qualifying fields with strings for names. *)
Lemma documented_turn_raises_nothing {World : Type} (sys : os World) json_loads
  (obj : string) (w : World) :
  (forall result w1,
     subprocess_run sys (describe_command obj) w = (Some result, w1) ->
     json_loads (stdout result ++ stderr result) = Raise JSONDecodeError \/
     exists describe_data,
       json_loads (stdout result ++ stderr result) = Ok describe_data /\
       documented_response describe_data /\
       existsb has_surrogate (shown_keys describe_data) = false /\
       Forall documented_entry (located_fields describe_data) /\
       all_strs (map name_of (filter qualifiesb (located_fields describe_data)))
       <> None) ->
  exists o, snd (process_object sys json_loads obj w) = Ok o.
Proof.
  intros Hdoc. unfold process_object.
  destruct (subprocess_run sys (describe_command obj) w) as [[result|] w1] eqn:Hrun;
    [|now exists InvocationFailed].
  destruct (Hdoc _ _ eq_refl) as [Hp | (describe_data & Hp & Hd & Hk & Hf & Hn)];
    rewrite Hp; [now exists UnparseableResponse|].
  unfold export_described. rewrite (lookup_fields_documented _ Hd Hk Hf).
  destruct (map name_of (filter qualifiesb (located_fields describe_data)))
    as [|n names] eqn:E; [now exists NoQualifyingFields|].
  unfold build_query. destruct (all_strs (n :: names)); [|now elim Hn].
  destruct (run_export sys obj _ _) as [[w3 events] o]. now exists o.
Qed.

(* ====================================================================== *)
(** ** The script on examples *)
(* ====================================================================== *)

(** Scenario 1 of the specification, run for [Contact]: the export that
    returns zero and leaves its file succeeds. *)
Example contact_is_exported :
  process_object
    (Scripted.env (Scripted.cli Scripted.contact_describe "" (Some 0%Z)
                     [output_path "Contact"]))
    (JsonDecoder.loads Scripted.limit) "Contact" []
  = ([output_path "Contact"; describe_file "Contact"],
     [Ran (describe_command "Contact");
      Wrote (describe_file "Contact") Scripted.contact_describe;
      Ran (export_command "SELECT Id, AccountId FROM Contact" (output_path "Contact"))],
     Ok Succeeded).
Proof. vm_compute. reflexivity. Qed.

(** Scenario 2: a polymorphic lookup is kept.  The match is on the exact
    string: [account] in lower case does not count. *)
Example polymorphic_lookup_is_kept :
  lookup_fields
    (JDict [("fields",
             JList [JDict [("name", JStr "WhatId");
                           ("referenceTo", JList [JStr "Opportunity"; JStr "Account"])];
                    JDict [("name", JStr "Other");
                           ("referenceTo", JList [JStr "account"])]])])
  = Ok [JStr "WhatId"].
Proof. reflexivity. Qed.

(** Scenario 3: a response without [fields] anywhere is skipped. *)
Example no_fields_key_is_skipped :
  process_object (Scripted.env (Scripted.cli "{}" "" (Some 0%Z) []))
    (JsonDecoder.loads Scripted.limit) "Case" []
  = ([describe_file "Case"],
     [Ran (describe_command "Case"); Wrote (describe_file "Case") "{}"],
     Ok NoQualifyingFields).
Proof. vm_compute. reflexivity. Qed.

(** Scenario 5: an export that returns zero and leaves no file fails. *)
Example export_without_file_fails :
  snd (process_object
         (Scripted.env (Scripted.cli Scripted.contact_describe "" (Some 0%Z) []))
         (JsonDecoder.loads Scripted.limit) "Contact" [])
  = Ok (Failed 0).
Proof. vm_compute. reflexivity. Qed.

(** A stale file does not turn an exit code of one into a success. *)
Example failed_export_with_stale_file_fails :
  snd (process_object
         (Scripted.env (Scripted.cli Scripted.contact_describe "" (Some 1%Z)
                          [output_path "Contact"]))
         (JsonDecoder.loads Scripted.limit) "Contact" [])
  = Ok (Failed 1).
Proof. vm_compute. reflexivity. Qed.

(** Scenario 6: an export command that cannot run fails every object type
    with the exit code [-1], and the run goes through the whole list. *)
Example export_that_cannot_run_fails_each_object :
  snd (main Scripted.limit
         (Scripted.env (Scripted.cli Scripted.contact_describe "" None [])) [])
  = Completed /\
  forall obj, In obj OBJECTS ->
    In (Reported obj (Failed (-1)))
       (snd (fst (main Scripted.limit
                    (Scripted.env (Scripted.cli Scripted.contact_describe "" None []))
                    []))).
Proof.
  split; [vm_compute; reflexivity|].
  intros obj Hin. simpl in Hin.
  repeat (destruct Hin as [<- | Hin]; [vm_compute; tauto|]). contradiction.
Qed.

(** A response whose keys hold a lone surrogate, written as the escape
    [\ud800], parses, and the debug line of line 107 cannot be printed:
    the run ends there with [UnicodeEncodeError]. *)
Example surrogate_key_ends_the_run :
  snd (main Scripted.limit
         (Scripted.env
            (Scripted.cli ("{" ++ Scripted.q "\ud800" ++ ":1}") "" (Some 0%Z) []))
         [])
  = Aborted UnicodeEncodeError.
Proof. vm_compute. reflexivity. Qed.

(** An integer of 4301 digits is one too long for [json.loads], which
    raises [ValueError]; line 101 does not catch it and the run ends. *)
Example long_integer_ends_the_run :
  snd (main Scripted.limit
         (Scripted.env (Scripted.cli (Scripted.digits 4301) "" (Some 0%Z) [])) [])
  = Aborted ValueError.
Proof. vm_compute. reflexivity. Qed.

(** The response [{"result": null}] has no qualifying field, and the run
    ends at the first object type instead of skipping it. *)
Lemma no_qualifying_fields_witness :
  run_objects
    (Scripted.env (Scripted.cli Scripted.null_result_describe "" (Some 0%Z) []))
    (JsonDecoder.loads Scripted.limit) ["Account"; "Contact"] []
  = ([describe_file "Account"],
     [Ran (describe_command "Account");
      Wrote (describe_file "Account") Scripted.null_result_describe],
     Aborted TypeError).
Proof.
  refine (proj1 (proj2 (proj2 (proj2
            (no_qualifying_fields_skips_export
               (Scripted.env (Scripted.cli Scripted.null_result_describe "" (Some 0%Z) []))
               (JsonDecoder.loads Scripted.limit) "Account" ["Contact"] [] []
               {| stdout := Scripted.null_result_describe; stderr := ""; returncode := 0 |}
               (JDict [("result", JNull)]) eq_refl _ _))))
            TypeError eq_refl).
  - vm_compute. reflexivity.
  - intros field [].
Defined.

(** A warning on the standard error behind an empty object. *)
Lemma describe_output_witness :
  JsonDecoder.loads Scripted.limit ("{}" ++ "Warning: update available")
  = Raise JSONDecodeError /\
  snd (process_object
         (Scripted.env (Scripted.cli "{}" "Warning: update available" (Some 0%Z) []))
         (JsonDecoder.loads Scripted.limit) "Contact" [])
  = Ok UnparseableResponse.
Proof.
  refine (proj1 (proj2 (proj2 (proj2 (proj2
            (describe_output_is_stdout_then_stderr
               (Scripted.env (Scripted.cli "{}" "Warning: update available" (Some 0%Z) []))
               "Contact" [] []
               {| stdout := "{}"; stderr := "Warning: update available"; returncode := 0 |}
               eq_refl)))))
            Scripted.limit (JDict []) _ _ _).
  - vm_compute. reflexivity.
  - discriminate.
  - discriminate.
Defined.

(** C9 as it was first put does not hold.  A standard error that is not
    empty does not by itself spoil the text: behind the response of
    scenario 1 a single line feed leaves a text that parses as before, and
    the object type is exported, not skipped.  A standard error can also
    carry on a number that the standard output ends with: [1] and [2]
    make [12], which parses, and the run ends at line 107 with
    [AttributeError].  And a standard output that [json.loads] cannot take
    for its size, an integer of 4301 digits, raises [ValueError] with or
    without a standard error behind it, which ends the run as well. *)
Lemma blank_stderr_still_parses :
  Scripted.newline <> "" /\
  JsonDecoder.loads Scripted.limit (Scripted.contact_describe ++ Scripted.newline)
  = JsonDecoder.loads Scripted.limit Scripted.contact_describe /\
  JsonDecoder.loads Scripted.limit (Scripted.contact_describe ++ Scripted.newline)
  <> Raise JSONDecodeError /\
  snd (process_object
         (Scripted.env (Scripted.cli Scripted.contact_describe Scripted.newline
                          (Some 0%Z) [output_path "Contact"]))
         (JsonDecoder.loads Scripted.limit) "Contact" [])
  = Ok Succeeded /\
  JsonDecoder.loads Scripted.limit "1" = Ok (JNum (NInt 1)) /\
  JsonDecoder.loads Scripted.limit ("1" ++ "2") = Ok (JNum (NInt 12)) /\
  snd (process_object (Scripted.env (Scripted.cli "1" "2" (Some 0%Z) []))
         (JsonDecoder.loads Scripted.limit) "Contact" [])
  = Raise AttributeError /\
  JsonDecoder.scan_int (Scripted.digits 4301) = Some (false, Scripted.digits 4301, "") /\
  JsonDecoder.loads Scripted.limit (Scripted.digits 4301 ++ " warning")
  = Raise ValueError /\
  snd (process_object
         (Scripted.env (Scripted.cli (Scripted.digits 4301) " warning" (Some 0%Z) []))
         (JsonDecoder.loads Scripted.limit) "Contact" [])
  = Raise ValueError.
Proof. repeat split; try (vm_compute; reflexivity); discriminate. Qed.

(** When the first describe response is [{"result": null}], the turn for
    [Account] raises [TypeError] on line 130 and the run ends there. *)
Lemma unexpected_shape_witness :
  main Scripted.limit
       (Scripted.env
          (Scripted.cli ("{" ++ Scripted.q "result" ++ ": null}") "" (Some 0%Z) []))
       []
  = ([describe_file "Account"; EXPORT_DIRECTORY],
     [Ran (describe_command "Account");
      Wrote (describe_file "Account") ("{" ++ Scripted.q "result" ++ ": null}")],
     Aborted TypeError).
Proof.
  apply (unexpected_shape_aborts_the_run
           (Scripted.env
              (Scripted.cli ("{" ++ Scripted.q "result" ++ ": null}") "" (Some 0%Z) []))
           (JsonDecoder.loads Scripted.limit) "Account"
           ["Contact"; "Case"; "Opportunity"; "Order"; "Asset"]
           [EXPORT_DIRECTORY] [EXPORT_DIRECTORY]
           {| stdout := "{" ++ Scripted.q "result" ++ ": null}";
              stderr := ""; returncode := 0 |}
           (JDict [("result", JNull)]) TypeError);
    [reflexivity | vm_compute; reflexivity | reflexivity].
Defined.

(* ====================================================================== *)
(** ** Further properties of the scan *)
(* ====================================================================== *)

(** What stops the scan at an entry is a [TypeError], for an entry of the
    wrong shape, or a [UnicodeEncodeError], for a debug line that cannot be
    printed. *)
Lemma entry_exception_kinds (field : json) (e : exn) :
  entry_exception field = Some e -> e = TypeError \/ e = UnicodeEncodeError.
Proof.
  unfold entry_exception. destruct field; try (intros H; inversion H; now left).
  - destruct (str_contains "referenceTo" s); intros H; inversion H. now left.
  - destruct (existsb (eq_str "referenceTo") items); intros H; inversion H. now left.
  - destruct (qualifiesb (JDict members)); [|discriminate].
    destruct (all_strs (referenced_types (JDict members)));
      [|intros H; inversion H; now left].
    match goal with |- context [if ?b then _ else _] => destruct b end;
      intros H; inversion H. now right.
Qed.

Lemma first_exception_kinds (fields : list json) (e : exn) :
  first_exception fields = Some e -> e = TypeError \/ e = UnicodeEncodeError.
Proof.
  induction fields as [|f fields IH]; cbn; [discriminate|].
  destruct (entry_exception f) as [e'|] eqn:Ef; [|exact IH].
  intros H. inversion H. subst. now apply entry_exception_kinds in Ef.
Qed.

Lemma first_exception_none (fields : list json) :
  first_exception fields = None <-> Forall (fun f => entry_exception f = None) fields.
Proof.
  induction fields as [|f fields IH]; cbn.
  - split; [constructor | reflexivity].
  - destruct (entry_exception f) as [e|] eqn:Ef.
    + split; [discriminate | intros H; inversion H; congruence].
    + rewrite IH. split; [now constructor | intros H; now inversion H].
Qed.

(** X3.  The loop over a list of field entries comes to its end exactly
    when no entry stops it; otherwise it raises what stops it at the first
    entry that does, a [TypeError] or a [UnicodeEncodeError], and the
    entries behind that one are not looked at.  When it comes to its end,
    [field_list] has grown by the names of the qualifying entries, in
    their order. *)
Theorem scan_completes_iff_entries_safe (fields : list json) (field_list : list json) :
  snd (for_each_field fields field_list)
  = match first_exception fields with
    | None => Ok tt
    | Some e => Raise e
    end /\
  (first_exception fields = None
   <-> Forall (fun f => entry_exception f = None) fields) /\
  (forall e, first_exception fields = Some e -> e = TypeError \/ e = UnicodeEncodeError) /\
  (forall before f after e,
     fields = (before ++ f :: after)%list ->
     first_exception before = None -> entry_exception f = Some e ->
     for_each_field fields field_list
     = ((field_list ++ map name_of (filter qualifiesb (before ++ [f])))%list, Raise e)) /\
  (first_exception fields = None ->
   fst (for_each_field fields field_list)
   = (field_list ++ map name_of (filter qualifiesb fields))%list).
Proof.
  split; [now rewrite for_each_field_scan | split; [apply first_exception_none | split]].
  - apply first_exception_kinds.
  - split.
    + intros before f after e -> Hb Hf. rewrite for_each_field_app.
      rewrite for_each_field_scan, Hb, (reached_all _ Hb).
      cbn [for_each_field]. unfold scan_bind. rewrite scan_field_turn, Hf.
      rewrite filter_app, map_app, app_assoc. cbn [filter].
      destruct (qualifiesb f); cbn [map]; [reflexivity | now rewrite !app_nil_r].
    + intros Hnone. now rewrite for_each_field_scan, (reached_all _ Hnone).
Qed.

(* ====================================================================== *)
(** ** Further properties of the search for the field list *)
(* ====================================================================== *)

(** X1.  On a response of the documented shape the two places are searched
    in order and never merged: when [result.fields] is a list the loop
    runs over it alone, whatever lies at the top level; when it is not, the
    loop runs over the top-level [fields] if that is a list; when neither
    is, nothing is scanned, and the keys of [result] are printed, which
    raises [UnicodeEncodeError] when one of them holds a lone surrogate and
    nothing otherwise. *)
Theorem nested_fields_come_first (describe_data : json) (field_list : list json) :
  documented_response describe_data ->
  (forall fields,
     nested_fields describe_data = Some fields ->
     collect_fields describe_data field_list = for_each_field fields field_list) /\
  (forall fields,
     nested_fields describe_data = None ->
     direct_fields describe_data = Some fields ->
     collect_fields describe_data field_list = for_each_field fields field_list) /\
  (nested_fields describe_data = None ->
   direct_fields describe_data = None ->
   collect_fields describe_data field_list
   = (field_list,
      if existsb has_surrogate (result_keys_shown describe_data)
      then Raise UnicodeEncodeError else Ok tt)).
Proof.
  intros Hd. rewrite (collect_fields_documented _ _ Hd).
  split; [|split].
  - intros fields ->. reflexivity.
  - intros fields -> ->. reflexivity.
  - intros -> ->. reflexivity.
Qed.

(** A response with a list in both places: only the nested one is
    scanned. *)
Lemma nested_fields_come_first_witness :
  collect_fields
    (JDict [("fields", JList [JDict [("name", JStr "AccountId");
                                     ("referenceTo", JList [JStr "Account"])]]);
            ("result", JDict [("fields", JList [])])])
    []
  = ([], Ok tt).
Proof.
  refine (proj1 (nested_fields_come_first
                   (JDict [("fields", JList [JDict [("name", JStr "AccountId");
                                                    ("referenceTo", JList [JStr "Account"])]]);
                           ("result", JDict [("fields", JList [])])])
                   [] _) [] eq_refl).
  eexists. split; [reflexivity | exact I].
Defined.

(** X2.  A response that parses to something other than an object: an
    empty list or an empty string finds no fields and is skipped; anything
    else that is true (a list or string with something in it, [true], a
    number other than zero) raises [AttributeError] at the debug line 107,
    which asks it for its [keys()]; [null], [false] and zero raise
    [TypeError] at line 130, where ['result' in describe_data] cannot be
    tested. *)
Theorem response_that_is_no_object (describe_data : json) :
  (forall members, describe_data <> JDict members) ->
  lookup_fields describe_data
  = if truthy describe_data then Raise AttributeError
    else match describe_data with
         | JStr _ => Ok []
         | JList _ => Ok []
         | _ => Raise TypeError
         end.
Proof.
  intros Hno. unfold lookup_fields, top_level_keys.
  destruct describe_data as [| b | n | s | items | members].
  - reflexivity.
  - destruct b; reflexivity.
  - destruct (truthy (JNum n)); reflexivity.
  - destruct s; reflexivity.
  - destruct items; reflexivity.
  - now elim (Hno members).
Qed.

Lemma response_that_is_no_object_witness :
  lookup_fields (JList [JDict [("name", JStr "AccountId")]]) = Raise AttributeError.
Proof.
  apply (response_that_is_no_object (JList [JDict [("name", JStr "AccountId")]])).
  discriminate.
Defined.

(** *** What the lookup raises *)

Lemma bind_raises {A B : Type} (c : result A) (k : A -> result B) :
  raises_lookup_exceptions c ->
  (forall a, c = Ok a -> raises_lookup_exceptions (k a)) ->
  raises_lookup_exceptions (bind c k).
Proof.
  intros Hc Hk. destruct c as [a|e]; simpl; [now apply Hk | exact Hc].
Qed.

Lemma contains_raises (needle : string) (c : json) :
  raises_lookup_exceptions (contains needle c).
Proof. destruct c; simpl; try exact I; now left. Qed.

(** A subscript behind a successful [in] test finds its key: it raises
    [TypeError] on a string or a list, which a string cannot index, and no
    [KeyError]. *)
Lemma getitem_guarded (needle : string) (c : json) :
  contains needle c = Ok true -> raises_lookup_exceptions (getitem c needle).
Proof.
  destruct c; simpl; try (intros; now left).
  rewrite dict_has_lookup.
  destruct (dict_lookup needle members); [intros; exact I | discriminate].
Qed.

Lemma get_raises (c : json) (key : string) (default : json) :
  raises_lookup_exceptions (get c key default).
Proof.
  destruct c; simpl; try (right; now left).
  destruct (dict_lookup key members); exact I.
Qed.

Lemma keys_raises (c : json) : raises_lookup_exceptions (keys c).
Proof. destruct c; simpl; try exact I; right; now left. Qed.

Lemma print_raises (values : list json) : raises_lookup_exceptions (print values).
Proof.
  unfold print. destruct (forallb printable values); [exact I | right; now right].
Qed.

Lemma result_fields_is_list_raises (describe_data : json) :
  raises_lookup_exceptions (result_fields_is_list describe_data).
Proof.
  unfold result_fields_is_list.
  apply bind_raises; [apply contains_raises|].
  intros [|] Hresult; [|exact I].
  apply bind_raises; [now apply getitem_guarded|].
  intros res Hres.
  apply bind_raises; [apply contains_raises|].
  intros [|] Hfields; [|exact I].
  apply bind_raises; [now apply getitem_guarded|].
  intros res' Hres'. assert (res' = res) as -> by congruence.
  apply bind_raises; [now apply getitem_guarded|].
  intros fields _. exact I.
Qed.

Lemma direct_fields_is_list_raises (describe_data : json) :
  raises_lookup_exceptions (direct_fields_is_list describe_data).
Proof.
  unfold direct_fields_is_list.
  apply bind_raises; [apply contains_raises|].
  intros [|] Hfields; [|exact I].
  apply bind_raises; [now apply getitem_guarded|].
  intros fields _. exact I.
Qed.

Lemma result_keys_raises (describe_data : json) :
  raises_lookup_exceptions (result_keys describe_data).
Proof.
  unfold result_keys.
  apply bind_raises; [apply contains_raises|].
  intros [|] Hresult; [|exact I].
  apply bind_raises; [apply get_raises|].
  intros res _. apply bind_raises; [apply keys_raises|].
  intros ks _. exact I.
Qed.

Lemma for_each_field_raises (fields : list json) (field_list : list json) :
  raises_lookup_exceptions (snd (for_each_field fields field_list)).
Proof.
  rewrite for_each_field_scan. cbn [snd].
  destruct (first_exception fields) as [e|] eqn:E; [|exact I].
  apply first_exception_kinds in E. destruct E as [-> | ->];
    [now left | right; now right].
Qed.

Lemma collect_fields_raises (describe_data : json) (field_list : list json) :
  raises_lookup_exceptions (snd (collect_fields describe_data field_list)).
Proof.
  unfold collect_fields, scan_bind, lift, scan_ret.
  pose proof (result_fields_is_list_raises describe_data) as Hn.
  destruct (result_fields_is_list describe_data) as [[|]|e] eqn:En.
  - destruct (result_fields_is_list_true _ En) as (res & fields & -> & -> & _).
    apply for_each_field_raises.
  - pose proof (direct_fields_is_list_raises describe_data) as Hd.
    destruct (direct_fields_is_list describe_data) as [[|]|e] eqn:Ed.
    + destruct (direct_fields_is_list_true _ Ed) as (fields & -> & _).
      apply for_each_field_raises.
    + pose proof (result_keys_raises describe_data) as Hk.
      destruct (result_keys describe_data) as [text|e]; [apply print_raises | exact Hk].
    + exact Hd.
  - exact Hn.
Qed.

(** The search and the scan raise [TypeError], [AttributeError],
    [UnicodeEncodeError] or nothing.  Every subscript follows a successful
    [in] test, so no key is ever missing. *)
Lemma lookup_fields_raises (describe_data : json) :
  raises_lookup_exceptions (lookup_fields describe_data).
Proof.
  unfold lookup_fields. apply bind_raises.
  - unfold top_level_keys. destruct (truthy describe_data); [|exact I].
    apply bind_raises; [apply keys_raises|].
    intros ks _. apply print_raises.
  - intros _ _. pose proof (collect_fields_raises describe_data []) as Hc.
    destruct (collect_fields describe_data []) as [field_list [[]|e]];
      [exact I | exact Hc].
Qed.

Lemma build_query_raises (obj : string) (field_list : list json) (e : exn) :
  build_query obj field_list = Raise e -> e = TypeError.
Proof.
  unfold build_query. destruct (all_strs field_list); [discriminate|].
  intros H. now inversion H.
Qed.

(* ====================================================================== *)
(** ** Further properties of a turn and of the run *)
(* ====================================================================== *)

Lemma all_strs_some (items : list json) (names : list string) :
  all_strs items = Some names -> items = map JStr names.
Proof.
  revert names. induction items as [|v items IH]; intros names; simpl.
  - intros H. now inversion H.
  - destruct v; try discriminate.
    destruct (all_strs items) as [ss|]; [|discriminate].
    intros H. inversion H. subst. simpl. now rewrite (IH ss eq_refl).
Qed.

(** What a turn does, case by case: the commands it runs, the dump it
    writes, the environment it leaves and how it ends, by what the
    describe command, [json.loads], the lookup of the fields and the
    construction of the query give. *)
Lemma turn_cases {World : Type} (sys : os World) json_loads (obj : string) (w : World) :
  let described := subprocess_run sys (describe_command obj) w in
  exists w' events r,
    process_object sys json_loads obj w = (w', events, r) /\
    ((fst described = None /\ w' = snd described /\
      events = [Ran (describe_command obj)] /\ r = Ok InvocationFailed) \/
     (exists result,
        fst described = Some result /\
        w' = write_text sys (describe_file obj) (stdout result ++ stderr result)
               (snd described) /\
        events = [Ran (describe_command obj);
                  Wrote (describe_file obj) (stdout result ++ stderr result)] /\
        ((r = Ok UnparseableResponse /\
          json_loads (stdout result ++ stderr result) = Raise JSONDecodeError) \/
         (r = Ok NoQualifyingFields /\
          exists describe_data,
            json_loads (stdout result ++ stderr result) = Ok describe_data /\
            lookup_fields describe_data = Ok []) \/
         (exists e,
            r = Raise e /\
            ((json_loads (stdout result ++ stderr result) = Raise e /\
              e <> JSONDecodeError) \/
             exists describe_data,
               json_loads (stdout result ++ stderr result) = Ok describe_data /\
               (lookup_fields describe_data = Raise e \/
                exists field_list,
                  lookup_fields describe_data = Ok field_list /\
                  build_query obj field_list = Raise e))))) \/
     (exists result describe_data names,
        fst described = Some result /\
        json_loads (stdout result ++ stderr result) = Ok describe_data /\
        lookup_fields describe_data = Ok (map JStr names) /\
        names <> [] /\
        let query := query_of obj (select_fields names) in
        let w2 := write_text sys (describe_file obj) (stdout result ++ stderr result)
                    (snd described) in
        w' = snd (subprocess_run sys (export_command query (output_path obj)) w2) /\
        events = [Ran (describe_command obj);
                  Wrote (describe_file obj) (stdout result ++ stderr result);
                  Ran (export_command query (output_path obj))] /\
        r = Ok (snd (run_export sys obj query w2)))).
Proof.
  unfold process_object.
  destruct (subprocess_run sys (describe_command obj) w) as [[result|] w1]; simpl.
  2: { eexists _, _, _. split; [reflexivity | left; now repeat split]. }
  destruct (json_loads (stdout result ++ stderr result)) as [describe_data|e] eqn:Hp.
  2: { assert (He : e = JSONDecodeError \/ e <> JSONDecodeError).
       { destruct e; (now left) || (right; discriminate). }
       destruct He as [-> | He].
       - eexists _, _, _. split; [reflexivity|]. right. left. exists result.
         repeat split. now left.
       - exists (write_text sys (describe_file obj) (stdout result ++ stderr result) w1),
           [Ran (describe_command obj);
            Wrote (describe_file obj) (stdout result ++ stderr result)],
           (Raise e).
         split; [destruct e; try reflexivity; now elim He|].
         right. left. exists result. repeat split.
         right. right. exists e. split; [reflexivity | now left]. }
  unfold export_described.
  destruct (lookup_fields describe_data) as [[|n field_list]|e] eqn:Hl.
  - eexists _, _, _. split; [reflexivity|]. right. left. exists result.
    repeat split. right. left. split; [reflexivity|].
    exists describe_data. now split.
  - unfold build_query.
    destruct (all_strs (n :: field_list)) as [names|] eqn:En.
    + pose proof (all_strs_some _ _ En) as Hnames.
      unfold run_export.
      destruct (subprocess_run sys _ _) as [ran w3] eqn:Ex.
      eexists _, _, _. split; [reflexivity|]. right. right.
      exists result, describe_data, names.
      split; [reflexivity|]. split; [exact Hp|].
      split; [now rewrite <- Hnames|].
      split; [intros ->; discriminate Hnames|].
      simpl. rewrite Ex. repeat split.
    + eexists _, _, _. split; [reflexivity|]. right. left. exists result.
      repeat split. right. right. exists TypeError. split; [reflexivity|].
      right. exists describe_data. split; [exact Hp|]. right.
      exists (n :: field_list). split; [exact Hl|].
      unfold build_query. now rewrite En.
  - eexists _, _, _. split; [reflexivity|]. right. left. exists result.
    repeat split. right. right. exists e. split; [reflexivity|].
    right. exists describe_data. split; [exact Hp | now left].
Qed.

(** X4.  A turn runs the describe command first and once.  The dump is
    written whenever that command ran, parsed or not, and holds its two
    outputs.  At most one export follows, after the dump: it runs exactly
    when [json.loads] decoded the text and the lookup, raising nothing,
    left a list of names that is not empty; these are the names of the
    qualifying fields among those located, all strings, and the export is
    run with the query over [Id] and them, to the output path of the
    object type.  A turn without an export ends as unparseable when
    [json.loads] raised [JSONDecodeError], as without qualifying fields
    when the lookup left no name, and with an exception otherwise: that of
    [json.loads], of the lookup or of the construction of the query; such
    a turn leaves the environment as the dump left it. *)
Theorem turn_runs_describe_then_at_most_one_export {World : Type} (sys : os World)
  json_loads (obj : string) (w : World) :
  let described := subprocess_run sys (describe_command obj) w in
  exists w' events r,
    process_object sys json_loads obj w = (w', events, r) /\
    ((fst described = None /\ w' = snd described /\
      events = [Ran (describe_command obj)] /\ r = Ok InvocationFailed) \/
     (exists result,
        fst described = Some result /\
        w' = write_text sys (describe_file obj) (stdout result ++ stderr result)
               (snd described) /\
        events = [Ran (describe_command obj);
                  Wrote (describe_file obj) (stdout result ++ stderr result)] /\
        ((r = Ok UnparseableResponse /\
          json_loads (stdout result ++ stderr result) = Raise JSONDecodeError) \/
         (r = Ok NoQualifyingFields /\
          exists describe_data,
            json_loads (stdout result ++ stderr result) = Ok describe_data /\
            lookup_fields describe_data = Ok []) \/
         (exists e,
            r = Raise e /\
            ((json_loads (stdout result ++ stderr result) = Raise e /\
              e <> JSONDecodeError) \/
             exists describe_data,
               json_loads (stdout result ++ stderr result) = Ok describe_data /\
               (lookup_fields describe_data = Raise e \/
                exists field_list,
                  lookup_fields describe_data = Ok field_list /\
                  build_query obj field_list = Raise e))))) \/
     (exists result describe_data names,
        fst described = Some result /\
        json_loads (stdout result ++ stderr result) = Ok describe_data /\
        lookup_fields describe_data = Ok (map JStr names) /\
        map JStr names
        = map name_of (filter qualifiesb (located_fields describe_data)) /\
        names <> [] /\
        let query := query_of obj (select_fields names) in
        let w2 := write_text sys (describe_file obj) (stdout result ++ stderr result)
                    (snd described) in
        w' = snd (subprocess_run sys (export_command query (output_path obj)) w2) /\
        events = [Ran (describe_command obj);
                  Wrote (describe_file obj) (stdout result ++ stderr result);
                  Ran (export_command query (output_path obj))] /\
        r = Ok (snd (run_export sys obj query w2)))).
Proof.
  intros described.
  destruct (turn_cases sys json_loads obj w) as (w' & events & r & Hturn & Hcases).
  exists w', events, r. split; [exact Hturn|].
  destruct Hcases as [H | [H | (result & d & names & Hr & Hp & Hl & Hne & Hrest)]];
    [now left | right; now left |].
  right. right. exists result, d, names.
  split; [exact Hr | split; [exact Hp | split; [exact Hl | split]]].
  - now apply lookup_fields_ok in Hl.
  - split; [exact Hne | exact Hrest].
Qed.

(** A turn reports nothing itself, and the only describe command it runs is
    that of its own object type. *)
Lemma turn_events {World : Type} (sys : os World) json_loads (obj : string) (w : World) :
  reported (snd (fst (process_object sys json_loads obj w))) = [] /\
  forall x, In (Ran (describe_command x)) (snd (fst (process_object sys json_loads obj w)))
            -> x = obj.
Proof.
  destruct (turn_cases sys json_loads obj w) as (w' & events & r & -> & Hshape).
  simpl.
  assert (Hown : forall x, Ran (describe_command x) = Ran (describe_command obj) -> x = obj).
  { intros x H. now inversion H. }
  destruct Hshape as [(_ & _ & -> & _) | [(result & _ & _ & -> & _)
                     | (result & d & names & _ & _ & _ & _ & _ & -> & _)]].
  - split; [reflexivity|]. intros x [H | []]. symmetry in H. now apply Hown.
  - split; [reflexivity|]. intros x [H | [H | []]]; [|discriminate].
    symmetry in H. now apply Hown.
  - split; [reflexivity|]. intros x [H | [H | [H | []]]]; try discriminate.
    symmetry in H. now apply Hown.
Qed.

Lemma reported_app (events1 events2 : list event) :
  reported (events1 ++ events2) = (reported events1 ++ reported events2)%list.
Proof.
  induction events1 as [|e events1 IH]; simpl; [reflexivity|].
  destruct e; simpl; now rewrite IH.
Qed.

(** A run that came to its end went through a turn that raised nothing
    for each of its object types, in the environment the turns before had
    left, and reported its outcome. *)
Lemma completed_run_turns {World : Type} (sys : os World) json_loads
  (objs : list string) :
  forall (w w' : World) (events : list event),
    run_objects sys json_loads objs w = (w', events, Completed) ->
    forall before obj after w0 events0,
      objs = (before ++ obj :: after)%list ->
      run_objects sys json_loads before w = (w0, events0, Completed) ->
      exists o, snd (process_object sys json_loads obj w0) = Ok o /\
                In (Reported obj o) events.
Proof.
  induction objs as [|obj1 objs IH]; intros w w' events Hrun before obj after w0 events0 Hsplit Hbefore.
  { now destruct before. }
  simpl in Hrun.
  destruct (process_object sys json_loads obj1 w) as [[w1 ev1] [o1|e1]] eqn:Hturn;
    [|discriminate].
  destruct (run_objects sys json_loads objs w1) as [[w2 later] e2] eqn:Hrest.
  inversion Hrun. subst w2 events e2.
  destruct before as [|b before]; simpl in Hsplit; inversion Hsplit; subst.
  - simpl in Hbefore. inversion Hbefore. subst. rewrite Hturn. exists o1.
    split; [reflexivity|]. apply in_or_app. right. now left.
  - simpl in Hbefore. rewrite Hturn in Hbefore.
    destruct (run_objects sys json_loads before w1) as [[wb evb] eb] eqn:Hb.
    inversion Hbefore. subst.
    destruct (IH w1 w' later Hrest before obj after w0 evb eq_refl Hb) as (o & Ho & Hin).
    exists o. split; [exact Ho|]. apply in_or_app. right. now right.
Qed.

(** X5.  The run reports on the object types in the order of the list, one
    report each, and describes no object type it does not get to.  It ends
    with the closing banner exactly when no turn raised, whatever the
    outcomes were: then every object type is reported, each with the
    outcome of its turn in the environment the turns before had left.
    Otherwise it ends at the first turn that raises, with the exception of
    that turn, the reports of the object types before it, none for itself
    and no describe command for those behind it. *)
Theorem run_reports_in_order {World : Type} (sys : os World) json_loads
  (objs : list string) (w : World) :
  exists w' events e,
    run_objects sys json_loads objs w = (w', events, e) /\
    ((e = Completed /\ reported events = objs /\
      (forall x, In (Ran (describe_command x)) events -> In x objs) /\
      (forall before obj after w0 events0,
         objs = (before ++ obj :: after)%list ->
         run_objects sys json_loads before w = (w0, events0, Completed) ->
         exists o, snd (process_object sys json_loads obj w0) = Ok o /\
                   In (Reported obj o) events)) \/
     (exists exn before obj after w0 events0,
        e = Aborted exn /\
        objs = (before ++ obj :: after)%list /\
        run_objects sys json_loads before w = (w0, events0, Completed) /\
        snd (process_object sys json_loads obj w0) = Raise exn /\
        reported events = before /\
        forall x, In (Ran (describe_command x)) events -> In x (before ++ [obj])%list)).
Proof.
  revert w. induction objs as [|obj objs IH]; intros w.
  { eexists _, _, _. split; [reflexivity|]. left.
    split; [reflexivity | split; [reflexivity | split]].
    - intros x [].
    - intros before obj after w0 events0 H. now destruct before. }
  destruct (turn_events sys json_loads obj w) as [Hrep Hdesc].
  destruct (process_object sys json_loads obj w) as [[w1 events] r] eqn:Hturn.
  simpl in Hrep, Hdesc.
  destruct r as [o|exn].
  - destruct (IH w1) as (w2 & later & e & Hrest & Hlater).
    exists w2, (events ++ Reported obj o :: later)%list, e.
    assert (Hrun : run_objects sys json_loads (obj :: objs) w
                   = (w2, (events ++ Reported obj o :: later)%list, e)).
    { simpl. now rewrite Hturn, Hrest. }
    split; [exact Hrun|].
    destruct Hlater as [(-> & Hr & Hd & _)
                       | (exn & before & x & after & w0 & ev0 & -> & -> & Hb & Hx & Hr & Hd)].
    + left. split; [reflexivity|]. split; [|split].
      * rewrite reported_app, Hrep. simpl. now rewrite Hr.
      * intros y Hy. apply in_app_or in Hy. destruct Hy as [Hy | [Hy | Hy]].
        -- left. symmetry. now apply Hdesc.
        -- discriminate.
        -- right. now apply Hd.
      * now apply (completed_run_turns sys json_loads (obj :: objs) w w2).
    + right. exists exn, (obj :: before), x, after, w0, (events ++ Reported obj o :: ev0)%list.
      split; [reflexivity|]. split; [reflexivity|]. split; [|split; [exact Hx | split]].
      * simpl. now rewrite Hturn, Hb.
      * rewrite reported_app, Hrep. simpl. now rewrite Hr.
      * intros y Hy. apply in_app_or in Hy. destruct Hy as [Hy | [Hy | Hy]].
        -- left. symmetry. now apply Hdesc.
        -- discriminate.
        -- right. now apply Hd.
  - exists w1, events, (Aborted exn).
    split; [simpl; now rewrite Hturn|]. right.
    exists exn, [], obj, objs, w, [].
    split; [reflexivity|]. split; [reflexivity|]. split; [reflexivity|].
    split; [now rewrite Hturn|]. split; [exact Hrep|].
    intros y Hy. left. symmetry. now apply Hdesc.
Qed.

(** What ends a turn with Python's decoder. *)
Lemma turn_exceptions {World : Type} (sys : os World) (limit : nat)
  (obj : string) (w : World) (e : exn) :
  snd (process_object sys (JsonDecoder.loads limit) obj w) = Raise e -> ends_a_run e.
Proof.
  destruct (turn_cases sys (JsonDecoder.loads limit) obj w)
    as (w' & events & r & -> & Hcases).
  simpl. intros ->. unfold ends_a_run.
  destruct Hcases as [(_ & _ & _ & H) | [(result & _ & _ & _ & H)
                     | (result & d & names & _ & _ & _ & _ & _ & _ & H)]];
    try discriminate.
  destruct H as [[H _] | [[H _] | (e' & H & Hwhy)]]; try discriminate.
  inversion H. subst e'.
  destruct Hwhy as [[Hp He] | (d & _ & [Hl | (fl & _ & Hq)])].
  - pose proof (DecoderFacts.loads_raises limit (stdout result ++ stderr result)) as Hr.
    rewrite Hp in Hr. destruct Hr as [-> | [-> | ->]]; [now elim He | tauto | tauto].
  - pose proof (lookup_fields_raises d) as Hr. rewrite Hl in Hr.
    destruct Hr as [-> | [-> | ->]]; tauto.
  - apply build_query_raises in Hq. subst. tauto.
Qed.

(** X9.  With Python's decoder the run ends with its closing banner or
    with one of five exceptions: [TypeError], [AttributeError],
    [UnicodeEncodeError], [ValueError] or [RecursionError].  It never ends
    with a [KeyError], since every subscript of the script follows a
    successful [in] test on the same key, nor with a [JSONDecodeError],
    which line 101 catches.  And each of the five does end a run: there is
    a describe output for each. *)
Theorem run_never_ends_with_key_error {World : Type} (sys : os World) (limit : nat)
  (objs : list string) (w : World) :
  (forall describe_data, raises_lookup_exceptions (lookup_fields describe_data)) /\
  (forall s, Shape.raises_decoder_exceptions (JsonDecoder.loads limit s)) /\
  match snd (run_objects sys (JsonDecoder.loads limit) objs w) with
  | Completed => True
  | Aborted e => ends_a_run e
  end /\
  (forall e, ends_a_run e ->
     exists out,
       snd (main Scripted.limit (Scripted.env (Scripted.cli out "" (Some 0%Z) [])) [])
       = Aborted e).
Proof.
  split; [apply lookup_fields_raises | split; [apply DecoderFacts.loads_raises | split]].
  - revert w. induction objs as [|obj objs IH]; intros w; simpl; [exact I|].
    pose proof (turn_exceptions sys limit obj w) as Hturn.
    destruct (process_object sys (JsonDecoder.loads limit) obj w) as [[w1 events] [o|exn]].
    + specialize (IH w1).
      destruct (run_objects sys (JsonDecoder.loads limit) objs w1) as [[w2 later] e].
      exact IH.
    + simpl. now apply Hturn.
  - intros e [-> | [-> | [-> | [-> | ->]]]].
    + exists Scripted.null_result_describe. vm_compute. reflexivity.
    + exists "1". vm_compute. reflexivity.
    + exists ("{" ++ Scripted.q "\ud800" ++ ":1}"). vm_compute. reflexivity.
    + exists (Scripted.digits 4301). vm_compute. reflexivity.
    + exists (Scripted.brackets 991). vm_compute. reflexivity.
Qed.

Lemma process_object_with_describe_code {World : Type} (code : Z) (sys : os World)
  json_loads (obj : string) (w : World) :
  process_object (with_describe_code code sys) json_loads obj w
  = process_object sys json_loads obj w.
Proof.
  unfold process_object. simpl.
  destruct (subprocess_run sys (describe_command obj) w) as [[result|] w1];
    [|reflexivity].
  simpl. destruct (json_loads (stdout result ++ stderr result)) as [d|e];
    [|destruct e; reflexivity].
  unfold export_described.
  destruct (lookup_fields d) as [[|n field_list]|e]; reflexivity.
Qed.

(** X6.  The exit code of the describe command is not looked at: were
    every describe command to end with any given code, its output being
    the same, the run would do and report exactly the same.  A describe
    that fails with output that parses is processed like one that
    succeeded. *)
Theorem describe_exit_code_is_ignored {World : Type} (code : Z) (sys : os World)
  json_loads (objs : list string) (w : World) :
  run_objects (with_describe_code code sys) json_loads objs w
  = run_objects sys json_loads objs w.
Proof.
  revert w. induction objs as [|obj objs IH]; intros w; simpl; [reflexivity|].
  rewrite process_object_with_describe_code.
  destruct (process_object sys json_loads obj w) as [[w' events] [o|e]];
    [|reflexivity].
  now rewrite IH.
Qed.

(** X7.  A describe command that prints nothing, or nothing but blanks, on
    both of its outputs gives a text that [json.loads] rejects: the dump is
    written, the object type is skipped as unparseable and nothing is
    raised. *)
Theorem blank_describe_output_is_skipped {World : Type} (sys : os World)
  (limit : nat) (obj : string) (w w1 : World) (result : completed) :
  subprocess_run sys (describe_command obj) w = (Some result, w1) ->
  Shape.blank (stdout result ++ stderr result) ->
  process_object sys (JsonDecoder.loads limit) obj w
  = (write_text sys (describe_file obj) (stdout result ++ stderr result) w1,
     [Ran (describe_command obj);
      Wrote (describe_file obj) (stdout result ++ stderr result)],
     Ok UnparseableResponse).
Proof.
  intros Hrun Hblank. unfold process_object.
  now rewrite Hrun, (DecoderFacts.loads_blank _ _ Hblank).
Qed.

Lemma blank_describe_output_witness :
  process_object (Scripted.env (Scripted.cli "" Scripted.newline (Some 1%Z) []))
    (JsonDecoder.loads Scripted.limit) "Order" []
  = ([describe_file "Order"],
     [Ran (describe_command "Order"); Wrote (describe_file "Order") Scripted.newline],
     Ok UnparseableResponse).
Proof.
  apply (blank_describe_output_is_skipped
           (Scripted.env (Scripted.cli "" Scripted.newline (Some 1%Z) []))
           Scripted.limit "Order" [] []
           {| stdout := ""; stderr := Scripted.newline; returncode := 0 |});
    reflexivity.
Defined.

(** *** Paths *)

Lemma append_cancel_l (p a b : string) : p ++ a = p ++ b -> a = b.
Proof.
  induction p as [|c p IH]; simpl; [trivial|]. intros H. inversion H. now apply IH.
Qed.

Lemma append_length (a b : string) :
  String.length (a ++ b) = String.length a + String.length b.
Proof.
  induction a as [|c a IH]; simpl; [reflexivity | now rewrite IH].
Qed.

Lemma append_cancel_r (a b s : string) : a ++ s = b ++ s -> a = b.
Proof.
  revert b. induction a as [|c a IH]; intros [|d b]; simpl; intros H.
  - reflexivity.
  - apply (f_equal String.length) in H. simpl in H. rewrite append_length in H. lia.
  - apply (f_equal String.length) in H. simpl in H. rewrite append_length in H. lia.
  - inversion H. f_equal. now apply IH.
Qed.

Lemma last_char_append (a : string) (c : ascii) (s : string) :
  last_char (a ++ String c s) = last_char (String c s).
Proof.
  induction a as [|x a IH]; [reflexivity|].
  change (String x a ++ String c s) with (String x (a ++ String c s)).
  destruct (a ++ String c s) eqn:E.
  - destruct a; discriminate.
  - rewrite <- E in *. simpl. rewrite E. rewrite <- E. exact IH.
Qed.

(** X8.  The files of the run do not collide: two object types never share
    a dump file or an output file, and no dump file is the output file of
    any object type. *)
Theorem paths_do_not_collide :
  (forall a b, describe_file a = describe_file b -> a = b) /\
  (forall a b, output_path a = output_path b -> a = b) /\
  (forall a b, describe_file a <> output_path b).
Proof.
  unfold describe_file, output_path. split; [|split].
  - intros a b H. apply append_cancel_l, append_cancel_l in H.
    now apply append_cancel_r in H.
  - intros a b H. apply append_cancel_l, append_cancel_l in H.
    now apply append_cancel_r in H.
  - intros a b H. apply append_cancel_l, append_cancel_l in H.
    apply (f_equal last_char) in H.
    rewrite (last_char_append a), (last_char_append b) in H. discriminate.
Qed.

(** *** The debug line of the export command *)

(** The names the scan recorded, when nothing stopped it, were printed on
    the way: none holds a lone surrogate. *)
Lemma recorded_names_printable (fields : list json) :
  first_exception fields = None ->
  Forall (fun name => printable name = true) (map name_of (filter qualifiesb fields)).
Proof.
  induction fields as [|f fields IH]; cbn; [constructor|].
  destruct (entry_exception f) as [e|] eqn:Ef; [discriminate|].
  intros Hrest. destruct (qualifiesb f) eqn:Hq; [|now apply IH].
  cbn. constructor; [|now apply IH].
  unfold entry_exception in Ef. destruct f as [| | | | |members]; try discriminate.
  rewrite Hq in Ef.
  destruct (all_strs (referenced_types (JDict members))); [|discriminate].
  destruct (printable (name_of (JDict members))); [reflexivity|discriminate].
Qed.

Lemma all_strs_printable (names : list string) :
  Forall (fun name => printable name = true) (map JStr names) ->
  existsb has_surrogate names = false.
Proof.
  induction names as [|n names IH]; cbn; [reflexivity|].
  intros H. inversion H as [|x l Hn Hrest]. subst. cbn in Hn.
  apply negb_true_iff in Hn. now rewrite Hn, IH.
Qed.

Lemma select_fields_from (names : list string) (n : string) :
  In n (select_fields names) -> n = "Id" \/ In n names.
Proof.
  rewrite select_fields_unfold. intros [<- | H]; [now left|].
  apply keep_first_fresh in H. tauto.
Qed.

Lemma existsb_has_surrogate_false (names : list string) :
  existsb has_surrogate names = false <-> forall n, In n names -> has_surrogate n = false.
Proof.
  induction names as [|x names IH]; cbn.
  - split; [intros _ n [] | reflexivity].
  - rewrite orb_false_iff, IH. split.
    + intros [Hx Hrest] n [<- | Hn]; [exact Hx | now apply Hrest].
    + intros H. split; [apply H; now left | intros n Hn; apply H; now right].
Qed.

(** The query is made of the selected names and the object type, and
    holds a lone surrogate only when one of them does. *)
Lemma has_surrogate_query (obj : string) (fields : list string) :
  has_surrogate (query_of obj fields)
  = existsb has_surrogate fields || has_surrogate obj.
Proof.
  unfold query_of. cbn.
  change (" FROM " ++ obj) with (String " "%char ("FROM " ++ obj)).
  rewrite has_surrogate_app by reflexivity.
  now rewrite has_surrogate_join.
Qed.

Lemma has_surrogate_output_path (obj : string) :
  has_surrogate (output_path obj) = has_surrogate obj.
Proof.
  unfold output_path, EXPORT_DIRECTORY. cbn.
  change (obj ++ "_export.csv") with (obj ++ String "_"%char "export.csv").
  rewrite has_surrogate_app by reflexivity. cbn. now rewrite orb_false_r.
Qed.

(** The debug line 225 shows the export command, the query in it.  Where
    the scan and the construction of the query raised nothing, the query
    is made of [Id] and of names that line 143 or 157 has printed, so the
    line can be printed as well. *)
Lemma export_command_is_printable (obj : string) (describe_data : json)
  (field_list : list json) (query : string) :
  has_surrogate obj = false ->
  lookup_fields describe_data = Ok field_list ->
  build_query obj field_list = Ok query ->
  print [JStr (join_strs " " (export_command query (output_path obj)))] = Ok tt.
Proof.
  intros Hobj Hl Hq.
  apply lookup_fields_ok in Hl. destruct Hl as [-> Hnone].
  apply recorded_names_printable in Hnone.
  unfold build_query in Hq.
  destruct (all_strs _) as [names|] eqn:En; [|discriminate].
  apply all_strs_some in En. rewrite En in Hnone.
  apply all_strs_printable in Hnone. inversion Hq. subst query.
  assert (Hquery : has_surrogate (query_of obj (select_fields names)) = false).
  { rewrite has_surrogate_query, Hobj, orb_false_r.
    apply existsb_has_surrogate_false. intros n Hn.
    apply select_fields_from in Hn. destruct Hn as [-> | Hn]; [reflexivity|].
    now apply (proj1 (existsb_has_surrogate_false names) Hnone). }
  unfold print. cbn [forallb printable].
  rewrite has_surrogate_join_blank. unfold export_command. cbn [existsb].
  rewrite Hquery, has_surrogate_output_path, Hobj. reflexivity.
Qed.

(** X12.  The debug line of line 225, which shows the export command with
    the query in it, never fails to print for an object type of the
    configured list: the turn gets there only when the scan and the
    construction of the query raised nothing, and then the query is made
    of [Id] and of names that the debug line of line 143 or 157 has
    printed before. *)
Theorem export_debug_line_never_fails (obj : string) (describe_data : json)
  (field_list : list json) (query : string) :
  In obj OBJECTS ->
  lookup_fields describe_data = Ok field_list ->
  build_query obj field_list = Ok query ->
  print [JStr (join_strs " " (export_command query (output_path obj)))] = Ok tt.
Proof.
  intros Hobj. apply export_command_is_printable.
  cbn in Hobj. repeat (destruct Hobj as [<- | Hobj]; [reflexivity|]). contradiction.
Qed.

Lemma export_debug_line_witness :
  print [JStr (join_strs " "
                 (export_command "SELECT Id, AccountId FROM Contact"
                    (output_path "Contact")))]
  = Ok tt.
Proof.
  apply (export_debug_line_never_fails "Contact"
           (JDict [("fields", JList [Scripted.account_lookup])])
           [JStr "AccountId"] "SELECT Id, AccountId FROM Contact").
  - cbn. tauto.
  - reflexivity.
  - reflexivity.
Defined.

(** X11.  The whole turn on a response of the documented shape.  When the
    parsed response is an object whose [result] is absent or an object,
    the located entries are objects, the qualifying ones hold only strings
    in their [referenceTo] and have the strings [names] for names, at least
    one, and no lone surrogate is in a key that is shown or in the name,
    type or referenced types of a qualifying entry: the turn runs the
    describe command, writes the dump, and runs the export once with the
    query [SELECT Id, ... FROM obj] over the names by first occurrence
    without [Id]; it ends as the check of the export says. *)
Theorem documented_turn_exports_selected_fields {World : Type} (sys : os World)
  json_loads (obj : string) (w w1 : World) (result : completed)
  (describe_data : json) (names : list string) :
  subprocess_run sys (describe_command obj) w = (Some result, w1) ->
  json_loads (stdout result ++ stderr result) = Ok describe_data ->
  documented_response describe_data ->
  existsb has_surrogate (shown_keys describe_data) = false ->
  Forall documented_entry (located_fields describe_data) ->
  map name_of (filter qualifiesb (located_fields describe_data)) = map JStr names ->
  names <> [] ->
  let describe_output := stdout result ++ stderr result in
  let w2 := write_text sys (describe_file obj) describe_output w1 in
  let query :=
    "SELECT " ++ String.concat ", " ("Id" :: keep_first ["Id"] names)
    ++ " FROM " ++ obj in
  let export_command := export_command query (output_path obj) in
  process_object sys json_loads obj w
  = (snd (subprocess_run sys export_command w2),
     [Ran (describe_command obj); Wrote (describe_file obj) describe_output;
      Ran export_command],
     Ok (snd (run_export sys obj query w2))).
Proof.
  intros Hrun Hparse Hd Hk Hf Hnames Hne describe_output w2 query command.
  assert (Hquery : build_query obj (map JStr names) = Ok query).
  { unfold build_query, query_of. rewrite all_strs_map.
    now rewrite join_strs_concat, select_fields_unfold. }
  unfold process_object. rewrite Hrun, Hparse. fold describe_output. fold w2.
  unfold export_described.
  rewrite (lookup_fields_documented _ Hd Hk Hf), Hnames.
  destruct names as [|n names]; [now elim Hne|].
  change (map JStr (n :: names)) with (JStr n :: map JStr names) in *.
  rewrite Hquery. unfold run_export. fold command.
  destruct (subprocess_run sys command w2) as [ran w3]. reflexivity.
Qed.

(** Scenario 1 of the specification, from the text the CLI prints to the
    command that is run. *)
Lemma documented_turn_witness :
  process_object
    (Scripted.env (Scripted.cli Scripted.contact_describe "" (Some 0%Z)
                     [output_path "Contact"]))
    (JsonDecoder.loads Scripted.limit) "Contact" []
  = ([output_path "Contact"; describe_file "Contact"],
     [Ran (describe_command "Contact");
      Wrote (describe_file "Contact") Scripted.contact_describe;
      Ran (export_command "SELECT Id, AccountId FROM Contact" (output_path "Contact"))],
     Ok Succeeded).
Proof.
  apply (documented_turn_exports_selected_fields
           (Scripted.env (Scripted.cli Scripted.contact_describe "" (Some 0%Z)
                            [output_path "Contact"]))
           (JsonDecoder.loads Scripted.limit) "Contact" [] []
           {| stdout := Scripted.contact_describe; stderr := ""; returncode := 0 |}
           (JDict [("result",
                    JDict [("fields",
                            JList [JDict [("name", JStr "Id")];
                                   JDict [("name", JStr "AccountId");
                                          ("referenceTo", JList [JStr "Account"])];
                                   JDict [("name", JStr "OwnerId");
                                          ("referenceTo", JList [JStr "User"])]])])])
           ["AccountId"]).
  - reflexivity.
  - vm_compute. reflexivity.
  - eexists. split; [reflexivity | exact I].
  - reflexivity.
  - repeat (apply Forall_cons; [split; [now eexists | reflexivity]|]).
    apply Forall_nil.
  - reflexivity.
  - discriminate.
Defined.
